(** * Grouping names by whole-word prefixes: the word trie and its clients

    A shallow embedding of [words/word_trie.py], [words/tools.py], the
    [move_name] action of [api/views.py] and the task of [api/tasks.py],
    followed by the properties the specification states about them and by
    further properties read off the code.

    Conventions of the embedding:
    - a Python [str] is a [string]; the word delimiter, which the
      specification fixes to a single character, is an [ascii];
    - [children] of a node is a Python [dict] whose iteration order
      (insertion order) drives the traversal, so it is an association list
      with explicit [dict] operations;
    - the mapping of groups ([grouped_names], [GroupingTask.result]) is
      only ever looked up, written and compared, so it is a
      [gmap string (list string)];
    - Python exceptions are the [Raise] results of a small error monad;
    - the lists that [_group_names] mutates in place are threaded through
      the calls: a [current_branch] is shared by the calls along one chain
      of single children and is read by nobody after it has been appended
      to [current_branches], and [current_branches] is read by the caller
      only after the call returns, so state passing loses no aliasing. *)

From Stdlib Require Import Ascii String.
From stdpp Require Import gmap strings list fin_maps.

(** ** Python exceptions *)

Inductive PyExn : Type :=
| KeyError
| ValueError
| IndexError
| StopIteration.

Inductive Result (A : Type) : Type :=
| Ok (a : A)
| Raise (e : PyExn).

Arguments Ok {A} a.
Arguments Raise {A} e.

#[global] Instance Result_ret : MRet Result := fun A a => Ok a.

#[global] Instance Result_bind : MBind Result := fun A B f m =>
  match m with
  | Ok a => f a
  | Raise e => Raise e
  end.

(** ** [str.split] and [str.join] for a one-character separator *)

(** [s.split(sep)]: the pieces of [s] between the occurrences of [sep];
    always at least one piece. *)
Fixpoint split (sep : ascii) (s : string) : list string :=
  match s with
  | EmptyString => [EmptyString]
  | String c s' =>
      if decide (c = sep) then EmptyString :: split sep s'
      else match split sep s' with
           | w :: ws => String c w :: ws
           | [] => [String c EmptyString]
           end
  end.

(** [sep.join(ws)]. *)
Fixpoint join (sep : ascii) (ws : list string) : string :=
  match ws with
  | [] => EmptyString
  | w :: ws' =>
      match ws' with
      | [] => w
      | _ :: _ => w +:+ String sep (join sep ws')
      end
  end.

(** ** Python list operations that can raise *)

(** [l[0]]. *)
Definition index0 {A} (l : list A) : Result A :=
  match l with
  | [] => Raise IndexError
  | x :: _ => Ok x
  end.

(** [l.remove(x)]: drops the first element equal to [x]. *)
Fixpoint list_remove {A} `{EqDecision A} (x : A) (l : list A) : Result (list A) :=
  match l with
  | [] => Raise ValueError
  | y :: l' =>
      if decide (x = y) then Ok l'
      else l'' ← list_remove x l'; Ok (y :: l'')
  end.

(** ** word_trie.py *)

Module word_trie.

(** [WordTrieNode]; [children] keeps the insertion order of its keys. *)
#[local] Unset Elimination Schemes.
Inductive WordTrieNode : Type := mkNode {
  word : string;
  text : string;
  is_full_name : bool;
  children : list (string * WordTrieNode)
}.
#[local] Set Elimination Schemes.

(** [node.children[k]], [None] where Python raises [KeyError]. *)
Fixpoint children_get (k : string) (d : list (string * WordTrieNode))
  : option WordTrieNode :=
  match d with
  | [] => None
  | (k', v) :: d' => if decide (k = k') then Some v else children_get k d'
  end.

(** [node.children[k] = v]: an existing key keeps its position, a new key
    goes last. *)
Fixpoint children_set (k : string) (v : WordTrieNode)
    (d : list (string * WordTrieNode)) : list (string * WordTrieNode) :=
  match d with
  | [] => [(k, v)]
  | (k', v') :: d' =>
      if decide (k = k') then (k, v) :: d' else (k', v') :: children_set k v d'
  end.

Definition is_root (node : WordTrieNode) : bool :=
  bool_decide (word node = "").

Definition is_branching_point (node : WordTrieNode) : bool :=
  bool_decide (1 < length (children node)).

Definition is_leaf (node : WordTrieNode) : bool :=
  match children node with
  | [] => true
  | _ :: _ => false
  end.

Record WordTrie : Type := mkTrie {
  root : WordTrieNode;
  word_delimiter : ascii
}.

Definition DEFAULT_WORD_DELIMITER : ascii := "_"%char.

(** [WordTrie(word_delimiter)]. *)
Definition new (word_delimiter : ascii) : WordTrie :=
  mkTrie (mkNode "" "" false []) word_delimiter.

(** The loop of [insert_name] from its [i]-th iteration on ([i] counts from
    1, as [enumerate(words, 1)] does); [rest] holds the words still to
    visit and [current_node] is the node reached so far.  The result is
    that node after the in-place updates of the remaining iterations. *)
Fixpoint insert_words (sep : ascii) (words : list string) (i : nat)
    (rest : list string) (current_node : WordTrieNode) : WordTrieNode :=
  match rest with
  | [] =>
      mkNode (word current_node) (text current_node) true
             (children current_node)
  | w :: rest' =>
      let child_node :=
        match children_get w (children current_node) with
        | Some c => c
        | None => mkNode w (join sep (take i words)) false []
        end in
      mkNode (word current_node) (text current_node)
             (is_full_name current_node)
             (children_set w (insert_words sep words (S i) rest' child_node)
                           (children current_node))
  end.

Definition insert_name (t : WordTrie) (name : string) : WordTrie :=
  let words := split (word_delimiter t) name in
  mkTrie (insert_words (word_delimiter t) words 1 words (root t))
         (word_delimiter t).

Definition from_names (names : list string) (word_delimiter : ascii)
  : WordTrie :=
  foldl insert_name (new word_delimiter) names.

(** [grouped_names[k].extend(l)] on the [defaultdict(list)]. *)
Definition extend (k : string) (l : list string)
    (grouped_names : gmap string (list string)) : gmap string (list string) :=
  <[k := default [] (grouped_names !! k) ++ l]> grouped_names.

(** [for child_node in node.children.values(): f(child_node)]. *)
Definition for_each_child {S : Type} (f : WordTrieNode → S → Result S)
  : list (string * WordTrieNode) → S → Result S :=
  fix loop cs st :=
    match cs with
    | [] => Ok st
    | (_, child_node) :: cs' => st' ← f child_node st; loop cs' st'
    end.

(** [for branch in reversed(sub_branches)] with the removal of the
    branches of more than one name.  [n] is one more than the index the
    reverse iterator holds; the iterator stops when that index is out of
    range. *)
Fixpoint absorb (n : nat) (sub_branches : list (list string))
    (grouped_names : gmap string (list string))
  : Result (list (list string) * gmap string (list string)) :=
  match n with
  | 0 => Ok (sub_branches, grouped_names)
  | S i =>
      match sub_branches !! i with
      | None => Ok (sub_branches, grouped_names)
      | Some branch =>
          if bool_decide (1 < length branch) then
            group_name ← index0 branch;
            let grouped_names := extend group_name branch grouped_names in
            sub_branches ← list_remove branch sub_branches;
            absorb i sub_branches grouped_names
          else absorb i sub_branches grouped_names
      end
  end.

(** The inner function of [WordTrie.group_names].  It returns the
    [current_branches] list and the [grouped_names] mapping as the call
    leaves them. *)
Fixpoint _group_names (node : WordTrieNode) (current_branch : list string)
    (current_branches : list (list string))
    (grouped_names : gmap string (list string)) {struct node}
  : Result (list (list string) * gmap string (list string)) :=
  if is_branching_point node then
    '(sub_branches, grouped_names) ←
      for_each_child
        (fun child_node '(sub_branches, grouped_names) =>
           _group_names child_node [] sub_branches grouped_names)
        (children node) ([], grouped_names);
    '(sub_branches, grouped_names) ←
      absorb (length sub_branches) sub_branches grouped_names;
    if is_root node then
      Ok (current_branches,
          foldl (fun g full_name => extend full_name [full_name] g)
                grouped_names (mjoin sub_branches))
    else if is_full_name node || bool_decide (1 < length sub_branches) then
      let group_name := text node in
      let grouped_names :=
        if is_full_name node then extend group_name [text node] grouped_names
        else grouped_names in
      Ok (current_branches,
          extend group_name (mjoin sub_branches) grouped_names)
    else
      Ok (current_branches ++ sub_branches, grouped_names)
  else
    let current_branch :=
      if is_full_name node then current_branch ++ [text node]
      else current_branch in
    if is_leaf node then
      Ok (current_branches ++ [current_branch], grouped_names)
    else
      match children node with
      | [] => Raise StopIteration
      | (_, child_node) :: _ =>
          _group_names child_node current_branch current_branches
                       grouped_names
      end.

(** [WordTrie.group_names]. *)
Definition group_names (t : WordTrie) : Result (gmap string (list string)) :=
  '(_, grouped_names) ← _group_names (root t) [] [] ∅;
  Ok grouped_names.

End word_trie.

(** ** tools.py *)

Module tools.

Definition group_names (names : list string) (word_delimiter : ascii)
  : Result (gmap string (list string)) :=
  word_trie.group_names (word_trie.from_names names word_delimiter).

End tools.

Definition EXAMPLE_NAMES : list string :=
  [ "adhoc_charge_amt"; "adhoc_charge_amt_usd"; "alcohol_direct_payment_ind";
    "alcohol_tax_amt"; "alcohol_tax_amt_usd"; "alcohol_gmv_amt";
    "alcohol_gmv_amt_usd"; "alcohol_product_ind"; "bag_fee"; "bag_fee_usd";
    "bags_fee_tax_amt"; "bags_fee_tax_amt_usd"; "bags_in_freezer";
    "bags_in_fridge"; "bags_in_shelves"; "country_id"; "currency" ].

Definition EXPECTED_GROUPS : gmap string (list string) :=
  list_to_map
    [ ("adhoc_charge_amt", ["adhoc_charge_amt"; "adhoc_charge_amt_usd"]);
      ("alcohol", ["alcohol_direct_payment_ind"; "alcohol_product_ind"]);
      ("alcohol_tax_amt", ["alcohol_tax_amt"; "alcohol_tax_amt_usd"]);
      ("alcohol_gmv_amt", ["alcohol_gmv_amt"; "alcohol_gmv_amt_usd"]);
      ("bag_fee", ["bag_fee"; "bag_fee_usd"]);
      ("bags_fee_tax_amt", ["bags_fee_tax_amt"; "bags_fee_tax_amt_usd"]);
      ("bags_in", ["bags_in_freezer"; "bags_in_fridge"; "bags_in_shelves"]);
      ("country_id", ["country_id"]);
      ("currency", ["currency"]) ].

(** ** api/models.py and api/views.py *)

Module views.

(** [input_data] of a grouping task, as the create serializer validates
    it. *)
Record InputData : Type := mkInputData {
  input_word_delimiter : ascii;
  input_names : list string
}.

(** The [GroupingTask] model; the time stamps are abstract clock values. *)
Record GroupingTask : Type := mkGroupingTask {
  input_data : InputData;
  result : gmap string (list string);
  created_at : nat;
  completed_at : option nat;
  updated_at : nat
}.

(** What a [Response] carries: the serialized task, or the error messages
    of one field. *)
Inductive ResponseData : Type :=
| TaskData (task : GroupingTask)
| FieldErrors (field : string) (messages : list string).

Record Response : Type := mkResponse {
  data : ResponseData;
  status : nat
}.

Definition HTTP_200_OK : nat := 200.
Definition HTTP_400_BAD_REQUEST : nat := 400.

(** [d[k]] on a mapping. *)
Definition getitem (k : string) (d : gmap string (list string))
  : Result (list string) :=
  match d !! k with
  | Some v => Ok v
  | None => Raise KeyError
  end.

(** [GroupingTask.save()]: the row is written back, [auto_now] stamps
    [updated_at]. *)
Definition save (now : nat) (task : GroupingTask) : GroupingTask :=
  mkGroupingTask (input_data task) (result task) (created_at task)
                 (completed_at task) now.

(** The [move_name] action on validated request data.  [grouping_task] is
    the stored row that [get_object] loads and [now] the clock at the
    request; the second component of the outcome is the stored row after
    the request.  An exception that no [except] clause catches leaves the
    view as a [Raise]. *)
Definition move_name (now : nat) (grouping_task : GroupingTask)
    (name source_group_name target_group_name : string)
  : Result (Response * GroupingTask) :=
  let try_block :=
    source_group ← getitem source_group_name (result grouping_task);
    list_remove name source_group in
  match try_block with
  | Raise KeyError =>
      Ok (mkResponse
            (FieldErrors "source_group"
               ["Group not found: " +:+ source_group_name +:+ "."])
            HTTP_400_BAD_REQUEST,
          grouping_task)
  | Raise ValueError =>
      Ok (mkResponse
            (FieldErrors "name"
               ["'" +:+ name +:+ "' not found in group '"
                  +:+ source_group_name +:+ "'."])
            HTTP_400_BAD_REQUEST,
          grouping_task)
  | Raise e => Raise e
  | Ok source_group =>
      (* the list held by the mapping has been updated in place *)
      let result := <[source_group_name := source_group]> (result grouping_task) in
      let result :=
        if bool_decide (source_group = []) then delete source_group_name result
        else result in
      let result :=
        if bool_decide (is_Some (result !! target_group_name)) then result
        else <[target_group_name := []]> result in
      target_group ← getitem target_group_name result;
      let result := <[target_group_name := target_group ++ [name]]> result in
      let grouping_task :=
        save now (mkGroupingTask (input_data grouping_task) result
                    (created_at grouping_task) (completed_at grouping_task)
                    (updated_at grouping_task)) in
      Ok (mkResponse (TaskData grouping_task) HTTP_200_OK, grouping_task)
  end.

End views.

(** ** api/tasks.py *)

Module tasks.

Import views.

(** [GroupingTask.objects.get(id=grouping_task_id, result={},
    completed_at=None)] on the table of tasks, keyed by [id]; [None]
    where Django raises [DoesNotExist]. *)
Definition get_uncompleted (db : gmap nat GroupingTask)
    (grouping_task_id : nat) : option GroupingTask :=
  match db !! grouping_task_id with
  | Some grouping_task =>
      if bool_decide (result grouping_task = ∅)
         && bool_decide (completed_at grouping_task = None)
      then Some grouping_task
      else None
  | None => None
  end.

(** [process_grouping_task_async]; [now] is what [timezone.now()]
    returns and [saved_at] the clock at the [save()]. *)
Definition process_grouping_task_async (now saved_at : nat)
    (db : gmap nat GroupingTask) (grouping_task_id : nat)
  : Result (gmap nat GroupingTask) :=
  match get_uncompleted db grouping_task_id with
  | None => Ok db
  | Some grouping_task =>
      result ← tools.group_names
                 (input_names (input_data grouping_task))
                 (input_word_delimiter (input_data grouping_task));
      let grouping_task :=
        mkGroupingTask (input_data grouping_task) result
                       (created_at grouping_task) (Some now)
                       (updated_at grouping_task) in
      Ok (<[grouping_task_id := save saved_at grouping_task]> db)
  end.

End tasks.

(** * Vocabulary of the properties *)

Import word_trie.
Import views.

(** [no_sep sep w]: the separator does not occur in [w]. *)
Fixpoint no_sep (sep : ascii) (w : string) : Prop :=
  match w with
  | EmptyString => True
  | String c w' => c ≠ sep ∧ no_sep sep w'
  end.

(** The texts of the nodes of a subtree that end a name, in depth-first
    order. *)
Fixpoint full_texts (node : WordTrieNode) : list string :=
  (if is_full_name node then [text node] else []) ++
  (children node ≫= λ kc, full_texts kc.2).

(** All the members of all the groups of a mapping. *)
Definition members (grouped_names : gmap string (list string)) : list string :=
  mjoin (map_to_list grouped_names).*2.

(** [has_name ws node]: following the words [ws] from [node] ends on a
    node that is marked as a full name. *)
Fixpoint has_name (ws : list string) (node : WordTrieNode) : Prop :=
  match ws with
  | [] => is_full_name node = true
  | w :: ws' =>
      match children_get w (children node) with
      | Some c => has_name ws' c
      | None => False
      end
  end.

(** A name list without the later occurrences of its duplicates. *)
Fixpoint dedup (names : list string) : list string :=
  match names with
  | [] => []
  | name :: names' => name :: filter (λ x, x ≠ name) (dedup names')
  end.

(** The trie already marks [name] as a full name. *)
Definition trie_has_name (t : WordTrie) (name : string) : Prop :=
  has_name (split (word_delimiter t) name) (root t).

(** [text_inv sep path node]: [node] sits at the end of the words [path]
    (empty for the root), its text is those words joined with the
    delimiter, every child is filed under its own word, and the same holds
    below. *)
Inductive text_inv (sep : ascii) : list string → WordTrieNode → Prop :=
| text_inv_node path node :
    text node = join sep path →
    (∀ k c, (k, c) ∈ children node → word c = k) →
    (∀ k c, (k, c) ∈ children node → text_inv sep (path ++ [k]) c) →
    text_inv sep path node.

(** The same invariant told from parent to child: the root's text is
    empty, a child of the root carries its word, and a deeper node carries
    its parent's text, the delimiter and its word. *)
Inductive parent_text_inv (sep : ascii) : nat → WordTrieNode → Prop :=
| parent_text_inv_node depth node :
    (depth = 0 → text node = "") →
    (∀ k c, (k, c) ∈ children node →
       text c = match depth with
                | 0 => word c
                | S _ => text node +:+ String sep (word c)
                end) →
    (∀ k c, (k, c) ∈ children node → parent_text_inv sep (S depth) c) →
    parent_text_inv sep depth node.

(** Every [children] mapping holds a key once. *)
Inductive keys_inv : WordTrieNode → Prop :=
| keys_inv_node node :
    NoDup (children node).*1 →
    (∀ k c, (k, c) ∈ children node → keys_inv c) →
    keys_inv node.

(** The words that lead from [node] to the nodes of its subtree that end a
    name. *)
Fixpoint full_paths (node : WordTrieNode) : list (list string) :=
  (if is_full_name node then [[]] else []) ++
  (children node ≫= λ kc, (kc.1 ::.) <$> full_paths kc.2).

(** How often [name] occurs in [l]. *)
Definition occurrences (name : string) (l : list string) : nat :=
  length (filter (λ x, x = name) l).

(** The coverage property as the specification words it: [group_names]
    returns, every input name sits in the member list of exactly one
    group, and the member lists together are as long as the input. *)
Definition coverage (names : list string) (sep : ascii) : Prop :=
  ∃ g, tools.group_names names sep = Ok g ∧
       (∀ name, name ∈ names →
          ∃ k, (∃ l, g !! k = Some l ∧ name ∈ l) ∧
               ∀ k', (∃ l, g !! k' = Some l ∧ name ∈ l) → k' = k) ∧
       length (members g) = length names.

(** Duplicate preservation as the specification words it: every input
    name sits in some group as often as it occurs in the input. *)
Definition duplicates_preserved (names : list string) (sep : ascii) : Prop :=
  ∃ g, tools.group_names names sep = Ok g ∧
       ∀ name, name ∈ names →
         ∃ k l, g !! k = Some l ∧ occurrences name l = occurrences name names.

(** [node.children[w1].children[w2]...]: the node the words [ws] lead to
    from [node], as the tests of the trie walk it. *)
Fixpoint find_node (ws : list string) (node : WordTrieNode)
  : option WordTrieNode :=
  match ws with
  | [] => Some node
  | w :: ws' =>
      match children_get w (children node) with
      | Some c => find_node ws' c
      | None => None
      end
  end.

(** The first word of a name. *)
Definition first_word (sep : ascii) (name : string) : string :=
  default "" (head (split sep name)).

(** Below [node], a node without children ends a name. *)
Inductive leaf_inv : WordTrieNode → Prop :=
| leaf_inv_node node :
    (∀ k c, (k, c) ∈ children node →
            children c = [] → is_full_name c = true) →
    (∀ k c, (k, c) ∈ children node → leaf_inv c) →
    leaf_inv node.

(** No group is empty, and a group of one member is named after it. *)
Definition groups_full (g : gmap string (list string)) : Prop :=
  ∀ k l, g !! k = Some l → l ≠ [] ∧ (length l = 1 → l = [k]).

(** [anchored sep Full k m]: the name [m] is spelled by the words [pm] of
    a node that ends a name, and [k] by a non-empty prefix of them. *)
Definition anchored (sep : ascii) (Full : list string → Prop)
    (k m : string) : Prop :=
  ∃ pk pm, pk ≠ [] ∧ pk `prefix_of` pm ∧
           k = join sep pk ∧ m = join sep pm ∧ Full pm.

(** Every member of every group is anchored to the name of its group. *)
Definition groups_anchored (sep : ascii) (Full : list string → Prop)
    (g : gmap string (list string)) : Prop :=
  ∀ k l m, g !! k = Some l → m ∈ l → anchored sep Full k m.

(** The paths of the names of one branch: below [base], and the first a
    prefix of the others. *)
Definition paths_ok (Full : list string → Prop) (base : list string)
    (ps : list (list string)) : Prop :=
  Forall (λ p, base `prefix_of` p ∧ p ≠ [] ∧ Full p) ps ∧
  ∀ p0 ps', ps = p0 :: ps' → Forall (λ p, p0 `prefix_of` p) ps'.

Definition branch_ok (sep : ascii) (Full : list string → Prop)
    (base : list string) (b : list string) : Prop :=
  ∃ ps, b = join sep <$> ps ∧ paths_ok Full base ps.

(** The branch that is being collected when the traversal stands at
    [path]: its names lie on the way to [path]. *)
Definition chain_ok (sep : ascii) (Full : list string → Prop)
    (base path : list string) (cb : list string) : Prop :=
  ∃ ps, cb = join sep <$> ps ∧ paths_ok Full base ps ∧
        Forall (λ p, p `prefix_of` path) ps.

(** The task of [test_grouping_tasks_workflow] once it is grouped, and
    after "xyz" has moved to the group "foo". *)
Definition workflow_task : GroupingTask :=
  mkGroupingTask (mkInputData "-" ["foo"; "foo-bar"; "foo-baz"; "xyz"])
    {[ "foo" := ["foo"; "foo-bar"; "foo-baz"]; "xyz" := ["xyz"] ]}
    1 (Some 2) 3.

Definition workflow_task_moved (now : nat) : GroupingTask :=
  mkGroupingTask (mkInputData "-" ["foo"; "foo-bar"; "foo-baz"; "xyz"])
    {[ "foo" := ["foo"; "foo-bar"; "foo-baz"; "xyz"] ]}
    1 (Some 2) now.

(** The mapping a successful move leaves: the source group without the
    first occurrence of the name (no group at all if that was its only
    member), then the name appended to the target group. *)
Definition moved (name source_group_name target_group_name : string)
    (l' : list string) (r : gmap string (list string))
  : gmap string (list string) :=
  extend target_group_name [name]
    (if decide (l' = []) then delete source_group_name r
     else <[source_group_name := l']> r).

(** The subtree of [node] is one chain of single children that ends in a
    leaf with the text [name], the only node of the chain that ends a
    name. *)
Inductive chain_to (name : string) : WordTrieNode → Prop :=
| chain_to_leaf node :
    children node = [] → is_full_name node = true → text node = name →
    chain_to name node
| chain_to_step node k c :
    children node = [(k, c)] → is_full_name node = false →
    chain_to name c → chain_to name node.

(** * Properties *)

(** ** The embedding on the examples of the repository *)

(** [test_inserting_nodes_if_not_exist] splits on the delimiter only. *)
Example split_foo_bar_baz : split "_" "foo_bar.baz" = ["foo"; "bar.baz"].
Proof. reflexivity. Qed.

Example split_empty_words : split "_" "a__b_" = ["a"; ""; "b"; ""].
Proof. reflexivity. Qed.

(** The example of the docstring of [WordTrie]. *)
Example group_names_docstring :
  tools.group_names ["foo_bar"; "foo_bar_baz"; "abc_asd"; "abc_xyz"] "_"
    = Ok {[ "abc" := ["abc_asd"; "abc_xyz"];
            "foo_bar" := ["foo_bar"; "foo_bar_baz"] ]}.
Proof. vm_compute. reflexivity. Qed.

(** [test_grouping_names_with_custom_word_delimiter]. *)
Example group_names_custom_delimiter :
  tools.group_names ["foo+bar_abc"; "foo+baz_xyz"] "+"
    = Ok {[ "foo" := ["foo+bar_abc"; "foo+baz_xyz"] ]}.
Proof. vm_compute. reflexivity. Qed.

(** The grouping that [test_grouping_tasks_workflow] retrieves. *)
Example group_names_workflow :
  tools.group_names ["foo"; "foo-bar"; "foo-baz"; "xyz"] "-"
    = Ok {[ "foo" := ["foo"; "foo-bar"; "foo-baz"]; "xyz" := ["xyz"] ]}.
Proof. vm_compute. reflexivity. Qed.

(** A full name above a branching point is collected in a branch that
    the branching point never publishes. *)
Example group_names_name_above_branch :
  tools.group_names ["a"; "a_b_c"; "a_b_d"; "z"] "_"
    = Ok {[ "a_b" := ["a_b_c"; "a_b_d"]; "z" := ["z"] ]}.
Proof. vm_compute. reflexivity. Qed.

(** ** Splitting and joining *)

Lemma split_not_nil sep s : split sep s ≠ [].
Proof.
  destruct s as [|c s]; simpl; [done|].
  case_decide; [done|]. by destruct (split sep s).
Qed.

Lemma split_no_sep sep s : Forall (no_sep sep) (split sep s).
Proof.
  induction s as [|c s IH]; simpl.
  - by repeat constructor.
  - case_decide.
    + by constructor.
    + destruct (split sep s) as [|w ws].
      * by repeat constructor.
      * inversion_clear IH. by repeat constructor.
Qed.

Lemma join_cons sep w ws :
  ws ≠ [] → join sep (w :: ws) = w +:+ String sep (join sep ws).
Proof. by destruct ws. Qed.

Lemma join_split sep s : join sep (split sep s) = s.
Proof.
  induction s as [|c s IH]; simpl; [done|].
  case_decide as Hc.
  - rewrite join_cons by apply split_not_nil. simpl. by rewrite IH, Hc.
  - pose proof (split_not_nil sep s) as Hne.
    destruct (split sep s) as [|w ws]; [done|].
    destruct ws as [|w' ws]; simpl in *; by rewrite <- IH.
Qed.

Lemma split_word sep w : no_sep sep w → split sep w = [w].
Proof.
  induction w as [|c w IH]; simpl; [done|].
  intros [Hc Hw]. rewrite decide_False by done. by rewrite IH.
Qed.

Lemma split_word_sep sep w s :
  no_sep sep w → split sep (w +:+ String sep s) = w :: split sep s.
Proof.
  induction w as [|c w IH]; simpl.
  - intros _. by rewrite decide_True.
  - intros [Hc Hw]. rewrite decide_False by done. by rewrite IH.
Qed.

Lemma split_join sep ws :
  ws ≠ [] → Forall (no_sep sep) ws → split sep (join sep ws) = ws.
Proof.
  induction ws as [|w ws IH]; [done|].
  intros _ Hws. inversion_clear Hws as [|? ? Hw Hws'].
  destruct ws as [|w' ws].
  - simpl. by apply split_word.
  - rewrite join_cons by done. rewrite split_word_sep by done.
    by rewrite IH.
Qed.

Lemma join_inj sep ws1 ws2 :
  ws1 ≠ [] → ws2 ≠ [] →
  Forall (no_sep sep) ws1 → Forall (no_sep sep) ws2 →
  join sep ws1 = join sep ws2 → ws1 = ws2.
Proof.
  intros ? ? ? ? Heq.
  rewrite <- (split_join sep ws1), <- (split_join sep ws2) by done.
  by rewrite Heq.
Qed.

Lemma string_app_assoc (a b c : string) : (a +:+ b) +:+ c = a +:+ (b +:+ c).
Proof.
  induction a as [|x a IH]; [done|].
  change (String x ((a +:+ b) +:+ c) = String x (a +:+ (b +:+ c))).
  by rewrite IH.
Qed.

Lemma join_snoc sep ws w :
  ws ≠ [] → join sep (ws ++ [w]) = join sep ws +:+ String sep w.
Proof.
  induction ws as [|w' ws IH]; [done|]. intros _.
  destruct ws as [|w'' ws]; [done|].
  change ((w' :: w'' :: ws) ++ [w]) with (w' :: ((w'' :: ws) ++ [w])).
  rewrite !join_cons by done. rewrite IH by done.
  by rewrite string_app_assoc.
Qed.

(** ** Induction on nodes *)

Lemma WordTrieNode_ind (P : WordTrieNode → Prop) :
  (∀ w t f cs, Forall (λ kc, P kc.2) cs → P (mkNode w t f cs)) →
  ∀ node, P node.
Proof.
  intros H. fix IH 1. intros [w t f cs]. apply H.
  induction cs as [|[k c] cs IHcs]; constructor; [apply IH | apply IHcs].
Qed.

(** ** What the traversal does with the names of a tree *)

Lemma members_empty : members ∅ = [].
Proof. unfold members. by rewrite map_to_list_empty. Qed.

Lemma members_extend k l g : members (extend k l g) ≡ₚ members g ++ l.
Proof.
  unfold members, extend. destruct (g !! k) as [v|] eqn:Hk; simpl.
  - rewrite <- (insert_delete_eq g).
    rewrite map_to_list_insert by apply lookup_delete_eq.
    rewrite <- (map_to_list_delete g k v) by done. simpl.
    rewrite <- !(assoc_L (++)). apply Permutation_app_head.
    apply Permutation_app_comm.
  - rewrite map_to_list_insert by done. simpl. apply Permutation_app_comm.
Qed.

Lemma members_singletons g l :
  members (foldl (λ g full_name, extend full_name [full_name] g) g l)
  ≡ₚ members g ++ l.
Proof.
  revert g. induction l as [|x l IH]; intros g; simpl.
  - by rewrite (right_id_L [] (++)).
  - rewrite IH, members_extend. by rewrite <- (assoc_L (++)).
Qed.

Lemma list_remove_elem_of {A} `{EqDecision A} (x : A) (l : list A) :
  x ∈ l → ∃ l', list_remove x l = Ok l' ∧ l ≡ₚ x :: l'.
Proof.
  induction l as [|y l IH]; [by intros ?%elem_of_nil|].
  intros Hx. simpl. case_decide as Hxy.
  - subst y. by exists l.
  - apply elem_of_cons in Hx as [?|Hx]; [done|].
    destruct (IH Hx) as (l' & -> & Hl'). exists (y :: l'). split; [done|].
    rewrite Hl'. apply Permutation_swap.
Qed.

Lemma list_remove_not_elem_of {A} `{EqDecision A} (x : A) (l : list A) :
  x ∉ l → list_remove x l = Raise ValueError.
Proof.
  induction l as [|y l IH]; [done|].
  intros [? ?]%not_elem_of_cons. simpl. rewrite decide_False by done.
  by rewrite IH.
Qed.

(** The reverse scan moves names from the branches into the groups and
    loses none. *)
Lemma absorb_spec n sub g :
  ∃ sub' g', absorb n sub g = Ok (sub', g') ∧
    members g' ++ mjoin sub' ≡ₚ members g ++ mjoin sub.
Proof.
  revert sub g. induction n as [|i IH]; intros sub g; simpl.
  { by exists sub, g. }
  destruct (sub !! i) as [branch|] eqn:Hi; [|by exists sub, g].
  case_bool_decide as Hlen; [|apply IH].
  destruct branch as [|group_name branch]; [simpl in Hlen; lia|]. simpl.
  destruct (list_remove_elem_of (group_name :: branch) sub) as (sub1 & -> & Hsub).
  { by eapply list_elem_of_lookup_2. }
  simpl. destruct (IH sub1 (extend group_name (group_name :: branch) g))
    as (sub' & g' & -> & Hperm).
  exists sub', g'. split; [done|].
  rewrite Hperm, members_extend, Hsub. simpl.
  by rewrite <- (assoc_L (++)).
Qed.

Lemma for_each_child_spec cs :
  Forall (λ kc : string * WordTrieNode, ∀ cb cbs g, ∃ cbs' g',
            _group_names kc.2 cb cbs g = Ok (cbs', g') ∧
            members g' ++ mjoin cbs'
              ⊆+ members g ++ mjoin cbs ++ cb ++ full_texts kc.2) cs →
  ∀ sub g, ∃ sub' g',
    for_each_child
      (λ child_node '(sub_branches, grouped_names),
         _group_names child_node [] sub_branches grouped_names)
      cs (sub, g) = Ok (sub', g') ∧
    members g' ++ mjoin sub'
      ⊆+ members g ++ mjoin sub ++ (cs ≫= λ kc, full_texts kc.2).
Proof.
  induction 1 as [|[k c] cs Hc _ IH]; intros sub g; simpl.
  - exists sub, g. split; [done|]. solve_submseteq.
  - simpl in Hc. destruct (Hc [] sub g) as (sub1 & g1 & -> & H1). simpl.
    destruct (IH sub1 g1) as (sub' & g' & -> & H2).
    exists sub', g'. split; [done|].
    etrans; [apply H2|]. rewrite (assoc_L (++)).
    etrans; [apply submseteq_skips_r, H1|]. simpl. solve_submseteq.
Qed.

(** The traversal never raises, and every name it files in a group or
    hands to its caller is a name it was given or the text of a node of the
    subtree that ends a name, each used at most once. *)
Lemma group_names_spec node :
  ∀ cb cbs g, ∃ cbs' g', _group_names node cb cbs g = Ok (cbs', g') ∧
    members g' ++ mjoin cbs' ⊆+ members g ++ mjoin cbs ++ cb ++ full_texts node.
Proof.
  induction node as [w t f cs IH] using WordTrieNode_ind.
  intros cb cbs g. simpl. unfold is_branching_point, is_leaf, is_root. simpl.
  case_bool_decide as Hbr.
  - destruct (for_each_child_spec cs IH [] g) as (sub1 & g1 & -> & H1).
    simpl in H1 |- *.
    destruct (absorb_spec (length sub1) sub1 g1) as (sub2 & g2 & -> & H2).
    simpl.
    assert (members g2 ++ mjoin sub2
              ⊆+ members g ++ (cs ≫= λ kc, full_texts kc.2)) as H3.
    { by rewrite H2. }
    case_bool_decide.
    + eexists _, _. split; [done|]. rewrite members_singletons.
      etrans; [apply submseteq_skips_r, H3|]. solve_submseteq.
    + destruct (f || bool_decide (1 < length sub2)).
      * eexists _, _. split; [done|]. rewrite members_extend.
        destruct f.
        -- rewrite members_extend.
           trans ((members g2 ++ mjoin sub2) ++ [t] ++ mjoin cbs);
             [solve_submseteq|].
           etrans; [apply submseteq_skips_r, H3|]. solve_submseteq.
        -- etrans; [apply submseteq_skips_r, H3|]. solve_submseteq.
      * eexists _, _. split; [done|]. rewrite join_app.
        trans ((members g2 ++ mjoin sub2) ++ mjoin cbs);
          [solve_submseteq|].
        etrans; [apply submseteq_skips_r, H3|]. solve_submseteq.
  - destruct cs as [|[k c] cs].
    + eexists _, _. split; [done|]. rewrite join_app. simpl.
      destruct f; simpl; solve_submseteq.
    + destruct cs; [|simpl in Hbr; lia].
      inversion_clear IH as [|? ? Hc _]. simpl in Hc |- *.
      destruct (Hc (if f then cb ++ [t] else cb) cbs g) as (cbs' & g' & -> & H).
      exists cbs', g'. split; [done|].
      etrans; [apply H|]. destruct f; solve_submseteq.
Qed.

(** ** The children mapping *)

Lemma children_get_Some k c d : children_get k d = Some c → (k, c) ∈ d.
Proof.
  induction d as [|[k' c'] d IH]; simpl; [done|].
  case_decide; intros ?; simplify_eq; [left | right; auto].
Qed.

Lemma children_get_None k d : children_get k d = None → k ∉ d.*1.
Proof.
  induction d as [|[k' c'] d IH]; simpl; [by intros _ ?%elem_of_nil|].
  case_decide; [done|]. intros ? [?|?]%elem_of_cons; [done|by apply IH].
Qed.

Lemma children_get_set_eq k v d : children_get k (children_set k v d) = Some v.
Proof.
  induction d as [|[k' c'] d IH]; simpl.
  - by rewrite decide_True.
  - case_decide; simpl; [by rewrite decide_True | by rewrite decide_False].
Qed.

Lemma children_get_set_ne k k' v d :
  k ≠ k' → children_get k' (children_set k v d) = children_get k' d.
Proof.
  intros Hne. induction d as [|[k'' c''] d IH]; simpl.
  - by rewrite decide_False.
  - case_decide; simpl; [|by rewrite IH].
    subst k''. by rewrite !decide_False.
Qed.

Lemma children_set_get_id k c d :
  children_get k d = Some c → children_set k c d = d.
Proof.
  induction d as [|[k' c'] d IH]; simpl; [done|].
  case_decide; intros ?; simplify_eq; [done|]. by rewrite IH.
Qed.

Lemma elem_of_children_set k v d kc :
  kc ∈ children_set k v d → kc = (k, v) ∨ kc ∈ d.
Proof.
  induction d as [|[k' c'] d IH]; simpl.
  - intros ?%list_elem_of_singleton. by left.
  - case_decide.
    + intros [?|?]%elem_of_cons; [by left | right; by right].
    + intros [?|?]%elem_of_cons; [right; subst; left|].
      destruct IH as [?|?]; [done | by left | right; by right].
Qed.

Lemma children_set_keys k v d :
  (children_set k v d).*1 =
    match children_get k d with
    | Some _ => d.*1
    | None => d.*1 ++ [k]
    end.
Proof.
  induction d as [|[k' c'] d IH]; csimpl; [done|].
  case_decide; csimpl; [by subst|].
  rewrite IH. by destruct (children_get k d).
Qed.

(** ** Names a trie already holds *)

Lemma insert_words_has_name sep words i rest node :
  has_name rest (insert_words sep words i rest node).
Proof.
  revert i node. induction rest as [|w rest IH]; intros i node; simpl; [done|].
  rewrite children_get_set_eq. apply IH.
Qed.

Lemma insert_words_id sep words i rest node :
  has_name rest node → insert_words sep words i rest node = node.
Proof.
  revert i node. induction rest as [|w rest IH]; intros i [wd t f cs]; simpl.
  - by intros ->.
  - destruct (children_get w cs) as [c|] eqn:Hget; [|done].
    intros Hc. rewrite IH by done. by rewrite children_set_get_id.
Qed.

Lemma insert_words_keeps sep words i rest node q :
  has_name q node → has_name q (insert_words sep words i rest node).
Proof.
  revert i node q.
  induction rest as [|w rest IH]; intros i node q; simpl.
  - by destruct q.
  - destruct q as [|k q]; simpl; [done|].
    destruct (decide (w = k)) as [->|Hne].
    + rewrite children_get_set_eq.
      destruct (children_get k (children node)); [apply IH | done].
    + by rewrite children_get_set_ne.
Qed.

Lemma elem_of_dedup names x : x ∈ dedup names ↔ x ∈ names.
Proof.
  induction names as [|name names IH]; simpl; [done|].
  rewrite !elem_of_cons, list_elem_of_filter, IH.
  destruct (decide (x = name)); tauto.
Qed.

Lemma NoDup_dedup names : NoDup (dedup names).
Proof.
  induction names as [|name names IH]; simpl; [constructor|].
  constructor.
  - rewrite list_elem_of_filter. by intros [? _].
  - by apply NoDup_filter.
Qed.

Lemma insert_name_has_name t name : trie_has_name (insert_name t name) name.
Proof. apply insert_words_has_name. Qed.

Lemma insert_name_id t name : trie_has_name t name → insert_name t name = t.
Proof.
  unfold trie_has_name, insert_name. intros H.
  rewrite insert_words_id by done. by destruct t.
Qed.

Lemma insert_name_keeps t name name' :
  trie_has_name t name → trie_has_name (insert_name t name') name.
Proof. apply insert_words_keeps. Qed.

Lemma foldl_insert_filter t name names :
  trie_has_name t name →
  foldl insert_name t (filter (λ x, x ≠ name) names) = foldl insert_name t names.
Proof.
  revert t. induction names as [|name' names IH]; intros t Ht; [done|].
  rewrite filter_cons. case_decide as Hne; simpl.
  - apply IH. by apply insert_name_keeps.
  - subst name'.
    rewrite (insert_name_id t name) by done. by apply IH.
Qed.

Lemma foldl_insert_dedup t names :
  foldl insert_name t (dedup names) = foldl insert_name t names.
Proof.
  revert t. induction names as [|name names IH]; intros t; simpl; [done|].
  rewrite foldl_insert_filter by apply insert_name_has_name. apply IH.
Qed.

(** ** The node-text invariant *)

Lemma text_inv_text sep path node :
  text_inv sep path node → text node = join sep path.
Proof. by destruct 1. Qed.

Lemma text_inv_parent sep path node :
  text_inv sep path node → parent_text_inv sep (length path) node.
Proof.
  induction 1 as [path node Ht Hw Hc IH]. constructor.
  - intros ?%nil_length_inv. by subst.
  - intros k c Hin. rewrite (text_inv_text _ _ _ (Hc k c Hin)), (Hw k c Hin).
    destruct path as [|w path]; [done|].
    simpl length. cbv iota. rewrite Ht. by apply join_snoc.
  - intros k c Hin. specialize (IH k c Hin).
    by rewrite length_app, Nat.add_1_r in IH.
Qed.

Lemma word_insert_words sep words i rest node :
  word (insert_words sep words i rest node) = word node.
Proof. by destruct rest. Qed.

Lemma insert_words_text_inv sep path rest node :
  text_inv sep path node →
  text_inv sep path
    (insert_words sep (path ++ rest) (S (length path)) rest node).
Proof.
  revert path node. induction rest as [|w rest IH]; intros path node Hinv.
  { destruct Hinv. by constructor. }
  destruct Hinv as [path node Ht Hw Hc]. simpl.
  set (child :=
         match children_get w (children node) with
         | Some c => c
         | None => mkNode w (join sep (take (S (length path)) (path ++ w :: rest)))
                          false []
         end).
  assert (word child = w ∧ text_inv sep (path ++ [w]) child) as [Hcw Hci].
  { unfold child. destruct (children_get w (children node)) as [c|] eqn:Hget.
    - apply children_get_Some in Hget. eauto.
    - split; [done|]. constructor; simpl.
      + rewrite cons_middle, (assoc_L (++)).
        by rewrite take_app_length' by (rewrite length_app; simpl; lia).
      + by intros ? ? ?%elem_of_nil.
      + by intros ? ? ?%elem_of_nil. }
  constructor; simpl; [done|..].
  - intros k c [?|?]%elem_of_children_set; [|by eauto].
    simplify_eq. by rewrite word_insert_words.
  - intros k c [?|?]%elem_of_children_set; [|by eauto].
    simplify_eq. specialize (IH (path ++ [w]) child Hci).
    by rewrite <- (assoc_L (++)), length_app, Nat.add_1_r in IH.
Qed.

Lemma new_text_inv sep : text_inv sep [] (root (new sep)).
Proof. constructor; simpl; [done|..]; by intros ? ? ?%elem_of_nil. Qed.

Lemma insert_name_text_inv t name :
  text_inv (word_delimiter t) [] (root t) →
  text_inv (word_delimiter t) [] (root (insert_name t name)).
Proof. apply (insert_words_text_inv _ []). Qed.

Lemma foldl_insert_text_inv t names :
  text_inv (word_delimiter t) [] (root t) →
  text_inv (word_delimiter t) [] (root (foldl insert_name t names)).
Proof.
  revert t. induction names as [|name names IH]; intros t Hinv; [done|].
  simpl. apply (IH (insert_name t name)).
  exact (insert_name_text_inv t name Hinv).
Qed.

Lemma from_names_text_inv names sep :
  text_inv sep [] (root (from_names names sep)).
Proof. apply (foldl_insert_text_inv (new sep)), new_text_inv. Qed.

(** ** Distinct keys, distinct names *)

Lemma insert_words_keys_inv sep words i rest node :
  keys_inv node → keys_inv (insert_words sep words i rest node).
Proof.
  revert i node. induction rest as [|w rest IH]; intros i node Hinv.
  { destruct Hinv. by constructor. }
  destruct Hinv as [node Hk Hc]. simpl. constructor; simpl.
  - rewrite children_set_keys.
    destruct (children_get w (children node)) eqn:Hget; [done|].
    apply NoDup_app. split_and!; [done| |apply NoDup_singleton].
    intros k Hin ->%list_elem_of_singleton.
    by apply children_get_None in Hget.
  - intros k c [?|?]%elem_of_children_set; [|by eauto].
    simplify_eq. apply IH.
    destruct (children_get w (children node)) eqn:Hget.
    + apply children_get_Some in Hget. eauto.
    + constructor; simpl; [constructor | by intros ? ? ?%elem_of_nil].
Qed.

Lemma foldl_insert_keys_inv t names :
  keys_inv (root t) → keys_inv (root (foldl insert_name t names)).
Proof.
  revert t. induction names as [|name names IH]; intros t Hinv; [done|].
  simpl. apply IH. by apply insert_words_keys_inv.
Qed.

Lemma from_names_keys_inv names sep : keys_inv (root (from_names names sep)).
Proof.
  apply foldl_insert_keys_inv. constructor; simpl;
    [constructor | by intros ? ? ?%elem_of_nil].
Qed.

Lemma NoDup_keys_agree (l : list (string * WordTrieNode)) k c1 c2 :
  NoDup l.*1 → (k, c1) ∈ l → (k, c2) ∈ l → c1 = c2.
Proof.
  induction l as [|[k' c'] l IH]; csimpl; [by intros _ ?%elem_of_nil|].
  intros [Hk Hl]%NoDup_cons [?|H1]%elem_of_cons [?|H2]%elem_of_cons;
    simplify_eq; [done|..|by eauto].
  - destruct Hk. by apply (list_elem_of_fmap_2 fst) in H2.
  - destruct Hk. by apply (list_elem_of_fmap_2 fst) in H1.
Qed.

Lemma elem_of_full_paths q node :
  q ∈ full_paths node ↔
    (q = [] ∧ is_full_name node = true) ∨
    ∃ k c q', q = k :: q' ∧ (k, c) ∈ children node ∧ q' ∈ full_paths c.
Proof.
  destruct node as [w t f cs]. simpl.
  rewrite elem_of_app, list_elem_of_bind. split.
  - intros [Hq|([k c] & Hq & Hkc)].
    + destruct f; [|by apply elem_of_nil in Hq].
      apply list_elem_of_singleton in Hq. by left.
    + apply list_elem_of_fmap in Hq as (q' & -> & Hq'). right. eauto 10.
  - intros [[-> ->]|(k & c & q' & -> & Hin & Hq')].
    + left. by apply list_elem_of_singleton.
    + right. exists (k, c). split; [|done]. by apply list_elem_of_fmap_2.
Qed.

Lemma full_paths_NoDup node : keys_inv node → NoDup (full_paths node).
Proof.
  induction 1 as [node Hk Hc IH]. destruct node as [w t f cs]. simpl in *.
  apply NoDup_app. split_and!.
  - destruct f; [apply NoDup_singleton | constructor].
  - intros q Hq (kc & (q' & -> & _)%list_elem_of_fmap & _)%list_elem_of_bind.
    destruct f; [|by apply elem_of_nil in Hq].
    by apply list_elem_of_singleton in Hq.
  - apply NoDup_bind.
    + intros [k1 c1] [k2 c2] q H1 H2 (q1 & -> & _)%list_elem_of_fmap
        (q2 & ? & _)%list_elem_of_fmap.
      simplify_eq/=. f_equal. by eapply NoDup_keys_agree.
    + intros [k c] Hin. apply NoDup_fmap_2_strong; [|by eauto].
      by intros ? ? _ _ [= ->].
    + by eapply NoDup_fmap_1.
Qed.

Lemma full_texts_paths sep path node :
  text_inv sep path node →
  full_texts node = (λ q, join sep (path ++ q)) <$> full_paths node.
Proof.
  induction 1 as [path node Ht Hw Hc IH]. destruct node as [w t f cs].
  simpl in *. rewrite fmap_app. f_equal.
  { destruct f; [|done]. simpl. by rewrite (right_id_L [] (++)), Ht. }
  clear Hw Hc. induction cs as [|[k c] cs IHcs]; csimpl; [done|].
  rewrite fmap_app. f_equal.
  - rewrite (IH k c) by left. rewrite <- list_fmap_compose.
    apply list_fmap_ext. intros _ q _. simpl.
    by rewrite <- (assoc_L (++)).
  - apply IHcs. intros k' c' ?. apply IH. by right.
Qed.

Lemma insert_words_full_paths sep words i rest node q :
  q ∈ full_paths (insert_words sep words i rest node) →
  q = rest ∨ q ∈ full_paths node.
Proof.
  revert i node q. induction rest as [|w rest IH]; intros i node q.
  - intros [[-> _]|(k & c & q' & -> & Hin & Hq')]%elem_of_full_paths;
      [by left|].
    right. apply elem_of_full_paths. right. eauto 10.
  - intros [[-> Hf]|(k & c & q' & -> & Hin & Hq')]%elem_of_full_paths;
      simpl in *.
    { right. apply elem_of_full_paths. by left. }
    apply elem_of_children_set in Hin as [?|Hin].
    + simplify_eq. apply IH in Hq' as [->|Hq']; [by left|]. right.
      destruct (children_get w (children node)) as [c|] eqn:Hget.
      * apply children_get_Some in Hget.
        apply elem_of_full_paths. right. eauto 10.
      * by apply elem_of_nil in Hq'.
    + right. apply elem_of_full_paths. right. eauto 10.
Qed.

Lemma foldl_insert_full_paths t names q :
  q ∈ full_paths (root (foldl insert_name t names)) →
  q ∈ full_paths (root t) ∨
  ∃ name, name ∈ names ∧ q = split (word_delimiter t) name.
Proof.
  revert t. induction names as [|name names IH]; intros t; simpl.
  { by left. }
  intros [Hq|(name' & ? & ->)]%IH.
  - apply insert_words_full_paths in Hq as [->|?]; [right | by left].
    exists name. split; [left | done].
  - right. exists name'. split; [by right | done].
Qed.

Lemma from_names_full_paths names sep q :
  q ∈ full_paths (root (from_names names sep)) →
  ∃ name, name ∈ names ∧ q = split sep name.
Proof.
  intros [Hq|?]%foldl_insert_full_paths; [|done].
  by apply elem_of_nil in Hq.
Qed.

(** The names a trie built by [from_names] marks are names of the list,
    each marked once. *)
Lemma from_names_full_texts_elem names sep x :
  x ∈ full_texts (root (from_names names sep)) → x ∈ names.
Proof.
  rewrite (full_texts_paths sep []) by apply from_names_text_inv.
  intros (q & -> & (name & ? & ->)%from_names_full_paths)%list_elem_of_fmap.
  simpl. by rewrite join_split.
Qed.

Lemma from_names_full_texts_NoDup names sep :
  NoDup (full_texts (root (from_names names sep))).
Proof.
  rewrite (full_texts_paths sep []) by apply from_names_text_inv.
  apply NoDup_fmap_2_strong; [|apply full_paths_NoDup, from_names_keys_inv].
  intros q1 q2 (n1 & _ & ->)%from_names_full_paths
    (n2 & _ & ->)%from_names_full_paths. simpl.
  rewrite !join_split. by intros ->.
Qed.

Lemma submseteq_NoDup {A} (l k : list A) : l ⊆+ k → NoDup k → NoDup l.
Proof.
  intros (k' & Hsub & Hperm)%submseteq_sublist_l Hk.
  eapply sublist_NoDup; [|done]. by rewrite Hperm.
Qed.

(** [group_names] returns, and what it returns is drawn from the marked
    names of the trie. *)
Lemma group_names_members names sep :
  ∃ g, tools.group_names names sep = Ok g ∧
       members g ⊆+ full_texts (root (from_names names sep)).
Proof.
  unfold tools.group_names, group_names.
  destruct (group_names_spec (root (from_names names sep)) [] [] ∅)
    as (cbs & g & -> & Hsub).
  exists g. split; [done|]. rewrite members_empty in Hsub. simpl in Hsub.
  etrans; [|apply Hsub]. by apply submseteq_inserts_r.
Qed.

Lemma members_lookup g k l :
  g !! k = Some l → members g ≡ₚ l ++ members (delete k g).
Proof.
  intros Hk. unfold members.
  by rewrite <- (map_to_list_delete g k l Hk).
Qed.

Lemma members_one_group g name k1 l1 k2 l2 :
  NoDup (members g) →
  g !! k1 = Some l1 → g !! k2 = Some l2 →
  name ∈ l1 → name ∈ l2 → k1 = k2.
Proof.
  intros Hnd H1 H2 Hn1 Hn2. destruct (decide (k1 = k2)) as [|Hne]; [done|].
  rewrite (members_lookup g k1 l1 H1) in Hnd.
  apply NoDup_app in Hnd as (_ & Hdisj & _). destruct (Hdisj name Hn1).
  rewrite (members_lookup (delete k1 g) k2 l2)
    by by rewrite lookup_delete_ne.
  apply elem_of_app. by left.
Qed.

Lemma occurrences_not_elem_of name l : name ∉ l → occurrences name l = 0.
Proof.
  unfold occurrences. induction l as [|x l IH]; [done|].
  intros [? ?]%not_elem_of_cons.
  rewrite filter_cons, decide_False by done. auto.
Qed.

Lemma occurrences_NoDup name l : NoDup l → occurrences name l ≤ 1.
Proof.
  induction 1 as [|x l Hx _ IH]; [unfold occurrences; simpl; lia|].
  pose proof (occurrences_not_elem_of x l Hx) as H0.
  unfold occurrences in *. rewrite filter_cons. case_decide; [|done].
  subst x. simpl. by rewrite H0.
Qed.

(** * The claims of the specification *)

(** ** Coverage (C1) *)

(** C1, as stated, fails: a name given twice is marked once in the trie,
    so ["a"; "a"; "b"] yields two members for three input names. *)
Lemma coverage_counterexample : ¬ coverage ["a"; "a"; "b"] "_".
Proof.
  intros (g & Hg & _ & Hlen).
  assert (tools.group_names ["a"; "a"; "b"] "_" =
            Ok (list_to_map [("a", ["a"]); ("b", ["b"])])) as Heq
    by (vm_compute; reflexivity).
  rewrite Heq in Hg. injection Hg as <-. vm_compute in Hlen. discriminate.
Qed.

(** C1, amended: [group_names] returns for every name list and delimiter;
    every member of every group is an input name; no name is a member
    twice, neither within a group nor in two groups; and the groups hold
    together at most as many members as the input has distinct names. *)
Theorem group_names_members_distinct names sep :
  ∃ g, tools.group_names names sep = Ok g ∧
       (∀ name, name ∈ members g → name ∈ names) ∧
       NoDup (members g) ∧
       (∀ name k1 l1 k2 l2,
          g !! k1 = Some l1 → g !! k2 = Some l2 →
          name ∈ l1 → name ∈ l2 → k1 = k2) ∧
       length (members g) ≤ length (dedup names).
Proof.
  destruct (group_names_members names sep) as (g & Hg & Hsub).
  assert (NoDup (members g)) as Hnd.
  { eapply submseteq_NoDup; [done|]. apply from_names_full_texts_NoDup. }
  assert (∀ name, name ∈ members g → name ∈ names) as Hin.
  { intros name Hname. eapply from_names_full_texts_elem.
    by eapply elem_of_submseteq. }
  exists g. split_and!; [done..| |].
  - intros name k1 l1 k2 l2. by apply members_one_group.
  - apply submseteq_length, NoDup_submseteq; [done|].
    intros name ?. apply elem_of_dedup. auto.
Qed.

Lemma group_names_members_distinct_witness :
  ∃ g, tools.group_names ["foo"; "foo-bar"; "foo-baz"; "xyz"] "-" = Ok g ∧
       (∀ name, name ∈ members g →
          name ∈ ["foo"; "foo-bar"; "foo-baz"; "xyz"]) ∧
       NoDup (members g) ∧
       (∀ name k1 l1 k2 l2,
          g !! k1 = Some l1 → g !! k2 = Some l2 →
          name ∈ l1 → name ∈ l2 → k1 = k2) ∧
       length (members g) ≤ length (dedup ["foo"; "foo-bar"; "foo-baz"; "xyz"]).
Proof.
  exact (group_names_members_distinct ["foo"; "foo-bar"; "foo-baz"; "xyz"] "-").
Defined.

(** ** The shallowest anchor (C2) *)

(** C2 at its own example: the trie of ["a_b"; "a_b_c"] is one chain from
    the root, the root is no branching point, and the branch the chain
    collects is appended to a list nobody reads: the mapping stays empty,
    where the claim has [{"a_b": ["a_b", "a_b_c"]}]. *)
Theorem group_names_single_chain :
  tools.group_names ["a_b"; "a_b_c"] DEFAULT_WORD_DELIMITER = Ok ∅.
Proof. vm_compute. reflexivity. Qed.

(** ** The reference scenario (C3) *)

(** C3: the seventeen names of the reference scenario, with the default
    delimiter, give exactly the nine expected groups. *)
Theorem group_names_example :
  tools.group_names EXAMPLE_NAMES DEFAULT_WORD_DELIMITER = Ok EXPECTED_GROUPS.
Proof. vm_cast_no_check (eq_refl (Ok EXPECTED_GROUPS)). Qed.

(** ** Grouping a group again (C4) *)

(** C4 at a failing input: ["a"; "b"] gives the two singleton groups, and
    grouping the members of the group ["a"] alone gives the empty mapping
    instead of that group. *)
Theorem regroup_singleton :
  tools.group_names ["a"; "b"] DEFAULT_WORD_DELIMITER
    = Ok (list_to_map [("a", ["a"]); ("b", ["b"])]) ∧
  tools.group_names ["a"] DEFAULT_WORD_DELIMITER = Ok ∅.
Proof. split; vm_compute; reflexivity. Qed.

(** ** Duplicate names (C5) *)

(** C5, as stated, fails: "foo_bar" is given twice and is a member once. *)
Lemma duplicates_preserved_counterexample :
  ¬ duplicates_preserved ["foo_bar"; "foo_bar"; "foo_baz"] "_".
Proof.
  intros (g & Hg & Hocc).
  assert (tools.group_names ["foo_bar"; "foo_bar"; "foo_baz"] "_" =
            Ok {[ "foo" := ["foo_bar"; "foo_baz"] ]}) as Heq
    by (vm_compute; reflexivity).
  rewrite Heq in Hg. injection Hg as <-.
  destruct (Hocc "foo_bar") as (k & l & Hl & Hn); [left|].
  apply lookup_singleton_Some in Hl as [<- <-]. vm_compute in Hn.
  discriminate.
Qed.

(** C5, amended: duplicate names are no error and leave no trace:
    [group_names] gives for a list what it gives for the list without the
    later occurrences of its duplicates, and no name occurs twice among the
    members of the groups. *)
Theorem group_names_duplicates_collapse names sep :
  tools.group_names names sep = tools.group_names (dedup names) sep ∧
  ∃ g, tools.group_names names sep = Ok g ∧
       ∀ name, occurrences name (members g) ≤ 1.
Proof.
  split.
  - unfold tools.group_names, from_names. by rewrite foldl_insert_dedup.
  - destruct (group_names_members names sep) as (g & Hg & Hsub).
    exists g. split; [done|]. intros name. apply occurrences_NoDup.
    eapply submseteq_NoDup; [done|]. apply from_names_full_texts_NoDup.
Qed.

(** ** No errors (C6) *)

(** C6: the empty name list gives the empty mapping, and the traversal
    returns a mapping, raising nothing, on every trie, those built by
    [from_names] among them. *)
Theorem group_names_total :
  (∀ sep, tools.group_names [] sep = Ok ∅) ∧
  (∀ t : WordTrie, ∃ g, group_names t = Ok g) ∧
  (∀ names sep, ∃ g, group_names (from_names names sep) = Ok g).
Proof.
  assert (∀ t : WordTrie, ∃ g, group_names t = Ok g) as Htotal.
  { intros t. unfold group_names.
    destruct (group_names_spec (root t) [] [] ∅) as (cbs & g & -> & _).
    by exists g. }
  split_and!; [done | done | intros; apply Htotal].
Qed.

(** ** Inserting a name twice (C9) *)

(** C9: inserting a name a second time changes nothing, so a name list
    and the list without the later occurrences of its duplicates build the
    same trie. *)
Theorem insert_name_idempotent :
  (∀ (t : WordTrie) name,
     insert_name (insert_name t name) name = insert_name t name) ∧
  (∀ names sep, from_names names sep = from_names (dedup names) sep).
Proof.
  split.
  - intros t name. apply insert_name_id, insert_name_has_name.
  - intros names sep. unfold from_names. by rewrite foldl_insert_dedup.
Qed.

(** ** The text of a node (C8) *)

(** C8: the root of a new trie has the empty text; [insert_name] keeps the
    invariant that every node's text is the words on its path joined with
    the delimiter, and so does any sequence of insertions; hence every trie
    of [from_names] has it, also in its parent-to-child form: a child of
    the root carries its word, a deeper node its parent's text, the
    delimiter and its word. *)
Theorem node_text_invariant :
  (∀ sep, text (root (new sep)) = "" ∧ text_inv sep [] (root (new sep))) ∧
  (∀ (t : WordTrie) name,
     text_inv (word_delimiter t) [] (root t) →
     text_inv (word_delimiter t) [] (root (insert_name t name))) ∧
  (∀ (t : WordTrie) names,
     text_inv (word_delimiter t) [] (root t) →
     text_inv (word_delimiter t) [] (root (foldl insert_name t names))) ∧
  (∀ names sep,
     text (root (from_names names sep)) = "" ∧
     text_inv sep [] (root (from_names names sep)) ∧
     parent_text_inv sep 0 (root (from_names names sep))).
Proof.
  split_and!.
  - intros sep. split; [done | apply new_text_inv].
  - apply insert_name_text_inv.
  - apply foldl_insert_text_inv.
  - intros names sep. pose proof (from_names_text_inv names sep) as Hinv.
    split_and!; [|done|].
    + by rewrite (text_inv_text _ _ _ Hinv).
    + by apply (text_inv_parent sep []).
Qed.

Lemma node_text_invariant_witness :
  text_inv "_" [] (root (insert_name (new "_") "foo_bar.baz")).
Proof.
  apply (proj1 (proj2 node_text_invariant) (new "_") "foo_bar.baz").
  apply (proj2 (proj1 node_text_invariant "_"%char)).
Defined.

(** ** Moving a name between groups (C7, C10) *)

Lemma list_remove_split {A} `{EqDecision A} (x : A) (l : list A) :
  x ∈ l →
  ∃ l1 l2, l = l1 ++ (x :: l2) ∧ (x ∉ l1) ∧ list_remove x l = Ok (l1 ++ l2).
Proof.
  induction l as [|y l IH]; [by intros ?%elem_of_nil|].
  intros Hx. simpl. case_decide as Hxy.
  - subst y. exists [], l. split_and!; [done| |done]. by intros ?%elem_of_nil.
  - apply elem_of_cons in Hx as [?|Hx]; [done|].
    destruct (IH Hx) as (l1 & l2 & -> & Hl1 & ->).
    exists (y :: l1), l2. split_and!; [done| |done].
    by intros [?|?]%elem_of_cons.
Qed.

(** C7: when the source group holds the name, the move answers 200 with
    the saved task; the first occurrence of the name has left the source
    group, a source group left empty is deleted, the target group, made if
    absent, has the name at its end, and no other group has changed.  The
    scenario of the specification comes out as stated. *)
Theorem move_name_moves :
  (∀ now task name source_group_name target_group_name l,
     result task !! source_group_name = Some l →
     name ∈ l →
     ∃ l1 l2 task',
       l = l1 ++ (name :: l2) ∧ (name ∉ l1) ∧
       move_name now task name source_group_name target_group_name
         = Ok (mkResponse (TaskData task') HTTP_200_OK, task') ∧
       result task' !! target_group_name
         = Some ((if decide (source_group_name = target_group_name)
                  then l1 ++ l2
                  else default [] (result task !! target_group_name))
                 ++ [name]) ∧
       (source_group_name ≠ target_group_name →
        result task' !! source_group_name
          = if decide (l1 ++ l2 = []) then None else Some (l1 ++ l2)) ∧
       (∀ k, k ≠ source_group_name → k ≠ target_group_name →
             result task' !! k = result task !! k) ∧
       input_data task' = input_data task ∧
       created_at task' = created_at task ∧
       completed_at task' = completed_at task ∧
       updated_at task' = now) ∧
  (∀ now input created completed updated,
     let before := {[ "foo" := ["foo"; "foo-bar"; "foo-baz"];
                      "xyz" := ["xyz"] ]} in
     let after := {[ "foo" := ["foo"; "foo-bar"; "foo-baz"; "xyz"] ]} in
     move_name now (mkGroupingTask input before created completed updated)
               "xyz" "xyz" "foo"
       = Ok (mkResponse
               (TaskData (mkGroupingTask input after created completed now))
               HTTP_200_OK,
             mkGroupingTask input after created completed now)).
Proof.
  split.
  - intros now task name src tgt l Hsrc Hname.
    destruct (list_remove_split name l Hname) as (l1 & l2 & -> & Hl1 & Hrem).
    unfold move_name, getitem. rewrite Hsrc. simpl. rewrite Hrem.
    set (r1 := <[src := l1 ++ l2]> (result task)).
    set (r2 := if bool_decide (l1 ++ l2 = []) then delete src r1 else r1).
    set (r3 := if bool_decide (is_Some (r2 !! tgt)) then r2
               else <[tgt := []]> r2).
    assert (r2 !! src = if decide (l1 ++ l2 = []) then None
                        else Some (l1 ++ l2)) as Hr2src.
    { unfold r2, r1. case_bool_decide as Hemp.
      - rewrite decide_True by done. apply lookup_delete_eq.
      - rewrite decide_False by done. apply lookup_insert_eq. }
    assert (∀ k, k ≠ src → r2 !! k = result task !! k) as Hr2ne.
    { intros k Hk. unfold r2, r1. case_bool_decide.
      - by rewrite lookup_delete_ne, lookup_insert_ne.
      - by rewrite lookup_insert_ne. }
    assert (r3 !! tgt = Some (if decide (src = tgt) then l1 ++ l2
                              else default [] (result task !! tgt))) as Hr3tgt.
    { unfold r3. case_bool_decide as Hsome.
      - destruct Hsome as [v Hv]. rewrite Hv. f_equal.
        destruct (decide (src = tgt)) as [<-|Hne].
        + rewrite Hr2src in Hv. by case_decide; simplify_eq.
        + rewrite Hr2ne in Hv by done. by rewrite Hv.
      - rewrite lookup_insert_eq. f_equal.
        apply eq_None_not_Some in Hsome.
        destruct (decide (src = tgt)) as [<-|Hne].
        + rewrite Hr2src in Hsome. by case_decide.
        + rewrite Hr2ne in Hsome by done. by rewrite Hsome. }
    assert (∀ k, k ≠ tgt → r3 !! k = r2 !! k) as Hr3ne.
    { intros k Hk. unfold r3. case_bool_decide; [done|].
      by rewrite lookup_insert_ne. }
    rewrite Hr3tgt. simpl.
    eexists l1, l2, _. split_and!; [done | done | done | simpl..].
    + by rewrite lookup_insert_eq.
    + intros Hne. by rewrite lookup_insert_ne, Hr3ne, Hr2src.
    + intros k Hks Hkt. by rewrite lookup_insert_ne, Hr3ne, Hr2ne.
    + done.
    + done.
    + done.
    + done.
  - intros now input created completed updated. simpl.
    unfold move_name, getitem, save. simpl.
    vm_compute. reflexivity.
Qed.

Lemma move_name_moves_witness :
  ∃ task',
    move_name 7
      (mkGroupingTask (mkInputData "-" ["foo"; "foo-bar"])
         {[ "foo" := ["foo"; "foo-bar"] ]} 1 (Some 2) 3)
      "foo-bar" "foo" "other"
      = Ok (mkResponse (TaskData task') HTTP_200_OK, task') ∧
    result task' !! "other" = Some ["foo-bar"] ∧
    updated_at task' = 7.
Proof.
  destruct (proj1 move_name_moves 7
              (mkGroupingTask (mkInputData "-" ["foo"; "foo-bar"])
                 {[ "foo" := ["foo"; "foo-bar"] ]} 1 (Some 2) 3)
              "foo-bar" "foo" "other" ["foo"; "foo-bar"])
    as (l1 & l2 & task' & _ & _ & Hmove & Htgt & _ & _ & _ & _ & _ & Hnow).
  - reflexivity.
  - apply list_elem_of_further, list_elem_of_here.
  - exists task'. split; [exact Hmove|]. split; [exact Htgt | exact Hnow].
Defined.

(** C10: when the source group is absent, or does not hold the name, the
    move answers 400 and the stored task is the one it found: no member
    removed, no group deleted or made, nothing saved. *)
Theorem move_name_rejects now task name source_group_name target_group_name :
  (result task !! source_group_name = None ∨
   ∃ l, result task !! source_group_name = Some l ∧ name ∉ l) →
  ∃ response,
    move_name now task name source_group_name target_group_name
      = Ok (response, task) ∧
    status response = HTTP_400_BAD_REQUEST.
Proof.
  unfold move_name, getitem. intros [->|(l & -> & Hl)]; simpl.
  - by eexists.
  - rewrite (list_remove_not_elem_of name l Hl). by eexists.
Qed.

Lemma move_name_rejects_witness :
  ∃ response,
    move_name 7
      (mkGroupingTask (mkInputData "-" ["foo"; "xyz"])
         {[ "foo" := ["foo"]; "xyz" := ["xyz"] ]} 1 (Some 2) 3)
      "foo" "xyz" "foo"
      = Ok (response,
            mkGroupingTask (mkInputData "-" ["foo"; "xyz"])
              {[ "foo" := ["foo"]; "xyz" := ["xyz"] ]} 1 (Some 2) 3) ∧
    status response = HTTP_400_BAD_REQUEST.
Proof.
  apply (move_name_rejects 7
           (mkGroupingTask (mkInputData "-" ["foo"; "xyz"])
              {[ "foo" := ["foo"]; "xyz" := ["xyz"] ]} 1 (Some 2) 3)
           "foo" "xyz" "foo").
  right. exists ["xyz"]. split; [reflexivity|].
  intros [?|?%elem_of_nil]%elem_of_cons; [discriminate | done].
Defined.

(** * Further properties of the code *)

(** ** Looking names up *)

Lemma has_name_find_node ws node :
  has_name ws node ↔
  ∃ n, find_node ws node = Some n ∧ is_full_name n = true.
Proof.
  revert node. induction ws as [|w ws IH]; intros node; simpl.
  - split; [by exists node | by intros (? & [= <-] & ?)].
  - destruct (children_get w (children node)); [apply IH|].
    split; [done | by intros (? & ? & _)].
Qed.

Lemma has_name_full_paths ws node : has_name ws node → ws ∈ full_paths node.
Proof.
  revert node. induction ws as [|w ws IH]; intros node; simpl.
  - intros ?. apply elem_of_full_paths. by left.
  - destruct (children_get w (children node)) as [c|] eqn:Hget; [|done].
    intros ?. apply elem_of_full_paths. right.
    exists w, c, ws. split_and!; [done | by apply children_get_Some | auto].
Qed.

Lemma foldl_insert_keeps t names name :
  trie_has_name t name → trie_has_name (foldl insert_name t names) name.
Proof.
  revert t. induction names as [|name' names IH]; intros t Ht; [done|].
  simpl. apply (IH (insert_name t name')). by apply insert_name_keeps.
Qed.

Lemma foldl_insert_has_name t names name :
  name ∈ names → trie_has_name (foldl insert_name t names) name.
Proof.
  revert t. induction names as [|name' names IH]; intros t;
    [by intros ?%elem_of_nil|].
  intros [->|?]%elem_of_cons; simpl.
  - apply (foldl_insert_keeps (insert_name t name')), insert_name_has_name.
  - by apply (IH (insert_name t name')).
Qed.

Lemma foldl_insert_word_delimiter t names :
  word_delimiter (foldl insert_name t names) = word_delimiter t.
Proof.
  revert t. induction names as [|name names IH]; intros t; [done|].
  simpl. by rewrite IH.
Qed.

Lemma from_names_word_delimiter names sep :
  word_delimiter (from_names names sep) = sep.
Proof. apply (foldl_insert_word_delimiter (new sep)). Qed.

Lemma from_names_marks names sep name :
  name ∈ names → has_name (split sep name) (root (from_names names sep)).
Proof.
  intros Hname. rewrite <- (from_names_word_delimiter names sep) at 1.
  by apply foldl_insert_has_name.
Qed.

Lemma from_names_marked names sep name :
  has_name (split sep name) (root (from_names names sep)) → name ∈ names.
Proof.
  intros (name' & ? & Heq)%has_name_full_paths%from_names_full_paths.
  apply (f_equal (join sep)) in Heq. rewrite !join_split in Heq.
  by subst.
Qed.

(** The trie of [from_names] marks a name exactly if the list has it. *)
Theorem from_names_has_name names sep name :
  trie_has_name (from_names names sep) name ↔ name ∈ names.
Proof.
  unfold trie_has_name. rewrite from_names_word_delimiter.
  split; [apply from_names_marked | apply from_names_marks].
Qed.

Lemma from_names_has_name_witness :
  trie_has_name (from_names ["a_b"; "c"] "_") "a_b".
Proof.
  apply (proj2 (from_names_has_name ["a_b"; "c"] "_" "a_b")).
  apply list_elem_of_here.
Defined.

(** ** Which nodes a trie has *)

Lemma find_node_insert_words sep words i rest node q :
  is_Some (find_node q (insert_words sep words i rest node)) ↔
  is_Some (find_node q node) ∨ q `prefix_of` rest.
Proof.
  revert i node q. induction rest as [|w rest IH]; intros i node q.
  - destruct q as [|k q]; simpl.
    + split; [by left | by eexists].
    + split; [by left|]. intros [?|[]%prefix_nil_not]. done.
  - destruct q as [|k q]; simpl.
    { split; [by left | by eexists]. }
    destruct (decide (w = k)) as [->|Hne].
    + rewrite children_get_set_eq, IH.
      destruct (children_get k (children node)) as [c|]; simpl.
      * split; [intros [?|?]; [by left | right; by apply prefix_cons]|].
        intros [?|?%prefix_cons_inv_2]; [by left | by right].
      * split.
        -- intros [Hq|?]; right; apply prefix_cons; [|done].
           destruct q; [apply prefix_nil | by destruct Hq].
        -- intros [[? [=]]|?%prefix_cons_inv_2]. by right.
    + rewrite children_get_set_ne by done.
      split; [by left|]. intros [?|?%prefix_cons_inv_1]; done.
Qed.

Lemma foldl_insert_find_node t names q :
  is_Some (find_node q (root (foldl insert_name t names))) ↔
  is_Some (find_node q (root t)) ∨
  ∃ name, name ∈ names ∧ q `prefix_of` split (word_delimiter t) name.
Proof.
  revert t. induction names as [|name names IH]; intros t; simpl.
  { split; [by left|]. by intros [?|(? & ?%elem_of_nil & _)]. }
  rewrite (IH (insert_name t name)). simpl.
  rewrite find_node_insert_words. split.
  - intros [[?|?]|(name' & ? & ?)]; [by left|right..].
    + exists name. split; [left | done].
    + exists name'. split; [by right | done].
  - intros [?|(name' & [->|?]%elem_of_cons & ?)].
    + left. by left.
    + left. by right.
    + right. by exists name'.
Qed.

Lemma find_node_prefix names sep q :
  is_Some (find_node q (root (from_names names sep))) →
  q = [] ∨ ∃ name, name ∈ names ∧ q `prefix_of` split sep name.
Proof.
  unfold from_names. intros [Hq|?]%foldl_insert_find_node; [|by right].
  left. destruct q; [done | by destruct Hq].
Qed.

Lemma prefix_find_node names sep q name :
  name ∈ names → q `prefix_of` split sep name →
  is_Some (find_node q (root (from_names names sep))).
Proof.
  intros ? ?. unfold from_names. apply foldl_insert_find_node.
  right. by exists name.
Qed.

(** A trie of [from_names] has a node at the end of the words [q] exactly
    if [q] is empty (the root) or some name of the list starts with the
    words [q]. *)
Theorem from_names_find_node names sep q :
  is_Some (find_node q (root (from_names names sep))) ↔
  q = [] ∨ ∃ name, name ∈ names ∧ q `prefix_of` split sep name.
Proof.
  split; [apply find_node_prefix|].
  intros [->|(name & ? & ?)]; [by eexists | by eapply prefix_find_node].
Qed.

Lemma from_names_find_node_witness :
  is_Some (find_node ["a"] (root (from_names ["a_b"; "c"] "_"))).
Proof.
  apply (proj2 (from_names_find_node ["a_b"; "c"] "_" ["a"])).
  right. exists "a_b". split; [apply list_elem_of_here|].
  exists ["b"]. reflexivity.
Defined.

Lemma find_node_text_inv sep path node ws n :
  text_inv sep path node → find_node ws node = Some n →
  text_inv sep (path ++ ws) n ∧ (ws ≠ [] → last ws = Some (word n)).
Proof.
  revert path node. induction ws as [|w ws IH]; intros path node Hinv; simpl.
  - intros [= <-]. by rewrite (right_id_L [] (++)).
  - destruct (children_get w (children node)) as [c|] eqn:Hget; [|done].
    apply children_get_Some in Hget. destruct Hinv as [path node _ Hw Hc].
    intros Hfind.
    destruct (IH (path ++ [w]) c (Hc w c Hget) Hfind) as [Hn Hlast].
    rewrite <- (assoc_L (++)) in Hn. split; [done|]. intros _.
    destruct ws as [|w' ws].
    + simpl in Hfind. simplify_eq. simpl. f_equal. symmetry. eauto.
    + rewrite last_cons_cons. by apply Hlast.
Qed.

(** In a trie of [from_names], the words of a name of the list lead to a
    node that ends a name, whose text is the name and whose word is the
    last word of the name. *)
Theorem from_names_name_node names sep name :
  name ∈ names →
  ∃ n, find_node (split sep name) (root (from_names names sep)) = Some n ∧
       is_full_name n = true ∧
       text n = name ∧
       last (split sep name) = Some (word n).
Proof.
  intros Hname. apply (from_names_marks names sep) in Hname.
  apply has_name_find_node in Hname as (n & Hfind & Hfull).
  exists n. split_and!; [done..| |].
  - destruct (find_node_text_inv sep [] _ _ _
                (from_names_text_inv names sep) Hfind) as [Hn _].
    rewrite (text_inv_text _ _ _ Hn). simpl. apply join_split.
  - eapply find_node_text_inv; [apply from_names_text_inv | done |].
    apply split_not_nil.
Qed.

Lemma from_names_name_node_witness :
  ∃ n, find_node (split "_" "foo_bar.baz")
         (root (from_names ["foo_bar.baz"; "abc"] "_")) = Some n ∧
       is_full_name n = true ∧
       text n = "foo_bar.baz" ∧
       last (split "_" "foo_bar.baz") = Some (word n).
Proof.
  apply (from_names_name_node ["foo_bar.baz"; "abc"] "_" "foo_bar.baz").
  apply list_elem_of_here.
Defined.

(** ** The root, and the nodes that pass for it *)

Lemma foldl_insert_root t names :
  word (root (foldl insert_name t names)) = word (root t) ∧
  is_full_name (root (foldl insert_name t names)) = is_full_name (root t).
Proof.
  revert t. induction names as [|name names IH]; intros t; [done|].
  simpl. destruct (IH (insert_name t name)) as [-> ->]. simpl.
  pose proof (split_not_nil (word_delimiter t) name).
  by destruct (split (word_delimiter t) name).
Qed.

(** The root of a trie of [from_names] passes the [is_root] test and ends
    no name; another node passes the test exactly if its word is empty,
    and the trie has such a node exactly if some name of the list has an
    empty word. *)
Theorem from_names_is_root names sep :
  is_root (root (from_names names sep)) = true ∧
  is_full_name (root (from_names names sep)) = false ∧
  (∀ ws n, ws ≠ [] →
     find_node ws (root (from_names names sep)) = Some n →
     (is_root n = true ↔ last ws = Some "")) ∧
  ((∃ ws n, ws ≠ [] ∧
      find_node ws (root (from_names names sep)) = Some n ∧
      is_root n = true) ↔
   ∃ name, name ∈ names ∧ "" ∈ split sep name).
Proof.
  assert (∀ ws n, ws ≠ [] →
            find_node ws (root (from_names names sep)) = Some n →
            (is_root n = true ↔ last ws = Some "")) as Hroot.
  { intros ws n Hws Hfind.
    destruct (find_node_text_inv sep [] _ _ _
                (from_names_text_inv names sep) Hfind) as [_ Hlast].
    rewrite (Hlast Hws). unfold is_root. rewrite bool_decide_eq_true.
    split; [by intros -> | by intros [= ->]]. }
  destruct (foldl_insert_root (new sep) names) as [Hw Hf].
  split_and!; [|done|done|].
  - unfold is_root, from_names. by rewrite Hw.
  - split.
    + intros (ws & n & Hws & Hfind & Hn).
      apply (Hroot ws n Hws Hfind) in Hn.
      assert (is_Some (find_node ws (root (from_names names sep))))
        as [?|(name & ? & [k Hk])]%find_node_prefix by (by eexists);
        [done|].
      exists name. split; [done|]. rewrite Hk. apply elem_of_app. left.
      apply last_Some in Hn as [ws' ->]. apply elem_of_app. right. left.
    + intros (name & Hname & (ws1 & ws2 & Heq)%list_elem_of_split).
      assert (is_Some (find_node (ws1 ++ [""])
                         (root (from_names names sep)))) as [n Hfind].
      { apply (prefix_find_node names sep _ name Hname).
        rewrite Heq. exists ws2. by rewrite <- (assoc_L (++)). }
      exists (ws1 ++ [""]), n. split_and!; [by destruct ws1 | done |].
      apply (Hroot (ws1 ++ [""]) n); [by destruct ws1 | done | apply last_snoc].
Qed.

Lemma from_names_is_root_witness :
  is_root (mkNode "" "a_" true []) = true ↔ last ["a"; ""] = Some "".
Proof.
  apply (proj1 (proj2 (proj2 (from_names_is_root ["a_"] "_")))
           ["a"; ""] (mkNode "" "a_" true []));
    [discriminate | reflexivity].
Defined.

(** ** The names a trie marks, counted *)

(** The texts of the nodes that end a name are the names of the list,
    each once. *)
Theorem from_names_full_texts names sep :
  full_texts (root (from_names names sep)) ≡ₚ dedup names.
Proof.
  apply NoDup_Permutation;
    [apply from_names_full_texts_NoDup | apply NoDup_dedup |].
  intros x. rewrite elem_of_dedup. split.
  { apply from_names_full_texts_elem. }
  intros Hx. apply (from_names_marks names sep) in Hx.
  apply has_name_full_paths in Hx.
  rewrite (full_texts_paths sep []) by apply from_names_text_inv.
  apply list_elem_of_fmap. exists (split sep x). simpl.
  by rewrite join_split.
Qed.

(** ** The order of the children *)

Lemma children_get_is_Some k d : is_Some (children_get k d) ↔ k ∈ d.*1.
Proof.
  split.
  - intros [c Hc%children_get_Some].
    by apply (list_elem_of_fmap_2 fst) in Hc.
  - intros Hk. destruct (children_get k d) eqn:Hget; [by eexists|].
    by apply children_get_None in Hget.
Qed.

Lemma insert_words_keys sep words i w rest node :
  (children (insert_words sep words i (w :: rest) node)).*1 =
    if decide (w ∈ (children node).*1) then (children node).*1
    else (children node).*1 ++ [w].
Proof.
  simpl. rewrite children_set_keys.
  pose proof (children_get_is_Some w (children node)) as Hiff.
  destruct (children_get w (children node)) eqn:Hget.
  - rewrite decide_True; [done|]. apply Hiff. by eexists.
  - rewrite decide_False; [done|]. intros [? [=]]%Hiff.
Qed.

Lemma foldl_insert_keys t names :
  (children (root (foldl insert_name t names))).*1 =
    foldl (λ acc w, if decide (w ∈ acc) then acc else acc ++ [w])
          (children (root t)).*1
          (first_word (word_delimiter t) <$> names).
Proof.
  revert t. induction names as [|name names IH]; intros t; [done|].
  csimpl. rewrite (IH (insert_name t name)). simpl. f_equal.
  unfold first_word. pose proof (split_not_nil (word_delimiter t) name).
  destruct (split (word_delimiter t) name) as [|w rest]; [done|].
  apply insert_words_keys.
Qed.

Lemma foldl_add_new_dedup (acc ws : list string) :
  foldl (λ acc w, if decide (w ∈ acc) then acc else acc ++ [w]) acc ws =
    acc ++ filter (λ x, x ∉ acc) (dedup ws).
Proof.
  revert acc. induction ws as [|w ws IH]; intros acc; simpl.
  { by rewrite filter_nil, (right_id_L [] (++)). }
  rewrite IH, filter_cons. case_decide as Hw.
  - rewrite decide_False by tauto. f_equal.
    rewrite list_filter_filter. apply list_filter_iff.
    intros x. split; [|tauto]. intros Hx. split; [done|]. by intros ->.
  - rewrite decide_True by done. rewrite <- (assoc_L (++)). simpl.
    do 2 f_equal. rewrite list_filter_filter. apply list_filter_iff.
    intros x. rewrite not_elem_of_app, list_elem_of_singleton. tauto.
Qed.

Lemma filter_not_elem_of_nil (l : list string) :
  filter (λ x, x ∉ []) l = l.
Proof.
  induction l as [|x l IH]; [done|].
  rewrite filter_cons_True by apply not_elem_of_nil. by rewrite IH.
Qed.

(** The children of the root are the distinct first words of the names,
    in the order in which the list first shows them: the order in which the
    traversal visits them. *)
Theorem from_names_root_children names sep :
  (children (root (from_names names sep))).*1 =
    dedup (first_word sep <$> names).
Proof.
  unfold from_names. rewrite foldl_insert_keys, foldl_add_new_dedup. simpl.
  apply filter_not_elem_of_nil.
Qed.

(** ** Leaves *)

Lemma children_set_not_nil k v d : children_set k v d ≠ [].
Proof. destruct d as [|[k' v'] d]; simpl; [done|]. by case_decide. Qed.

Lemma insert_words_leaf sep words i rest node :
  children (insert_words sep words i rest node) = [] →
  is_full_name (insert_words sep words i rest node) = true.
Proof.
  destruct rest; simpl; [done|]. by intros ?%children_set_not_nil.
Qed.

Lemma insert_words_leaf_inv sep words i rest node :
  leaf_inv node → leaf_inv (insert_words sep words i rest node).
Proof.
  revert i node. induction rest as [|w rest IH]; intros i node Hinv.
  { destruct Hinv. by constructor. }
  destruct Hinv as [node Hl Hc]. simpl. constructor; simpl.
  - intros k c [?|?]%elem_of_children_set; [|by eauto].
    simplify_eq. apply insert_words_leaf.
  - intros k c [?|?]%elem_of_children_set; [|by eauto].
    simplify_eq. apply IH.
    destruct (children_get w (children node)) eqn:Hget.
    + apply children_get_Some in Hget. eauto.
    + constructor; simpl; by intros ? ? ?%elem_of_nil.
Qed.

Lemma from_names_leaf_inv names sep : leaf_inv (root (from_names names sep)).
Proof.
  unfold from_names.
  assert (leaf_inv (root (new sep))) as Hnew.
  { constructor; simpl; by intros ? ? ?%elem_of_nil. }
  revert Hnew. generalize (new sep).
  induction names as [|name names IH]; intros t Ht; [done|].
  simpl. apply IH. by apply insert_words_leaf_inv.
Qed.

Lemma leaf_inv_find_node w ws node n :
  leaf_inv node → find_node (w :: ws) node = Some n →
  leaf_inv n ∧ (children n = [] → is_full_name n = true).
Proof.
  revert w node. induction ws as [|w' ws IH]; intros w node Hinv; simpl.
  - destruct (children_get w (children node)) as [c|] eqn:Hget; [|done].
    apply children_get_Some in Hget. intros [= <-].
    destruct Hinv as [node Hl Hc]. eauto.
  - destruct (children_get w (children node)) as [c|] eqn:Hget; [|done].
    apply children_get_Some in Hget. destruct Hinv as [node Hl Hc].
    apply (IH w' c). eauto.
Qed.

(** In a trie of [from_names], every node other than the root that has
    no children ends a name. *)
Theorem from_names_leaves names sep ws n :
  ws ≠ [] →
  find_node ws (root (from_names names sep)) = Some n →
  is_leaf n = true → is_full_name n = true.
Proof.
  intros Hws Hfind Hleaf. destruct ws as [|w ws]; [done|].
  eapply leaf_inv_find_node; [apply from_names_leaf_inv | done |].
  unfold is_leaf in Hleaf. by destruct (children n).
Qed.

Lemma from_names_leaves_witness :
  is_full_name (mkNode "b" "a_b" true []) = true.
Proof.
  apply (from_names_leaves ["a_b"] "_" ["a"; "b"] (mkNode "b" "a_b" true []));
    [discriminate | reflexivity | reflexivity].
Defined.

(** ** The reverse scan of the sub-branches *)

Lemma list_remove_app_l {A} `{EqDecision A} (x : A) (l l' k : list A) :
  list_remove x l = Ok l' → list_remove x (l ++ k) = Ok (l' ++ k).
Proof.
  revert l'. induction l as [|y l IH]; intros l'; simpl; [done|].
  case_decide; [by intros [= ->]|].
  destruct (list_remove x l) as [l''|] eqn:Hrem; simpl; [|done].
  intros [= <-]. by rewrite (IH l'').
Qed.

Lemma list_remove_length {A} `{EqDecision A} (x : A) (l l' : list A) :
  list_remove x l = Ok l' → length l = S (length l').
Proof.
  revert l'. induction l as [|y l IH]; intros l'; simpl; [done|].
  case_decide; [by intros [= ->]|].
  destruct (list_remove x l) as [l''|] eqn:Hrem; simpl; [|done].
  intros [= <-]. simpl. by rewrite (IH l'').
Qed.

Lemma list_remove_filter {A} `{EqDecision A} (P : A → Prop)
    `{∀ x, Decision (P x)} (x : A) (l l' : list A) :
  list_remove x l = Ok l' → ¬ P x → filter P l' = filter P l.
Proof.
  intros Hrem HP. revert l' Hrem.
  induction l as [|y l IH]; intros l'; simpl; [done|].
  case_decide.
  - intros [= ->]. subst y. by rewrite filter_cons_False.
  - destruct (list_remove x l) as [l''|] eqn:Hrem; simpl; [|done].
    intros [= <-]. rewrite !filter_cons. by rewrite (IH l'').
Qed.

Lemma absorb_filter n l1 l2 g :
  length l1 = n → Forall (λ b, length b ≤ 1) l2 →
  ∃ g', absorb n (l1 ++ l2) g
          = Ok (filter (λ b, length b ≤ 1) (l1 ++ l2), g').
Proof.
  revert l1 l2 g. induction n as [|i IH]; intros l1 l2 g Hlen Hl2.
  { apply nil_length_inv in Hlen as ->. simpl. exists g.
    do 2 f_equal. symmetry. induction Hl2 as [|b l2 Hb _ IH']; [done|].
    by rewrite filter_cons_True, IH'. }
  destruct l1 as [|b l1 _] using rev_ind; [done|].
  rewrite length_app in Hlen. simpl in Hlen.
  assert (length l1 = i) as Hi by lia.
  assert (((l1 ++ [b]) ++ l2) !! i = Some b) as Hlook.
  { rewrite <- (assoc_L (++)). by apply list_lookup_middle. }
  simpl. rewrite Hlook. case_bool_decide as Hb.
  - destruct b as [|group_name b]; [simpl in Hb; lia|]. simpl.
    destruct (list_remove_elem_of (group_name :: b) (l1 ++ [group_name :: b]))
      as (l1' & Hrem & _).
    { apply elem_of_app. right. left. }
    pose proof (list_remove_length _ _ _ Hrem) as Hlen'.
    rewrite length_app in Hlen'. simpl in Hlen'.
    rewrite (list_remove_app_l _ _ l1' l2 Hrem). simpl.
    destruct (IH l1' l2 (extend group_name (group_name :: b) g))
      as (g' & ->); [lia | done |].
    exists g'. do 2 f_equal. rewrite (filter_app _ (l1 ++ _)), filter_app.
    f_equal. apply (list_remove_filter _ _ _ _ Hrem). simpl in *. lia.
  - rewrite <- (assoc_L (++)).
    destruct (IH l1 ([b] ++ l2) g) as (g' & ->); [done| |by exists g'].
    constructor; [lia | done].
Qed.

(** The reverse scan removes exactly the sub-branches of more than one
    name and keeps the others in their order: after it, every remaining
    sub-branch holds at most one name. *)
Theorem absorb_keeps_short sub g :
  ∃ g', absorb (length sub) sub g
          = Ok (filter (λ b, length b ≤ 1) sub, g') ∧
        Forall (λ b, length b ≤ 1) (filter (λ b, length b ≤ 1) sub).
Proof.
  destruct (absorb_filter (length sub) sub [] g) as (g' & Heq);
    [done | constructor |].
  rewrite (right_id_L [] (++)) in Heq. exists g'. split; [done|].
  apply Forall_forall. by intros b [? _]%list_elem_of_filter.
Qed.

(** ** No empty group *)

Lemma groups_full_extend k l g :
  groups_full g → l ≠ [] → (length l = 1 → l = [k]) →
  groups_full (extend k l g).
Proof.
  intros Hg Hl Hl1 k' l'. unfold extend.
  destruct (decide (k = k')) as [<-|Hne].
  - rewrite lookup_insert_eq. intros [= <-].
    destruct (g !! k) as [l0|] eqn:Hk; simpl; [|done].
    destruct (Hg k l0 Hk) as [Hl0 _]. split; [by destruct l0|].
    rewrite length_app. destruct l0, l; simpl in *; try done; lia.
  - rewrite lookup_insert_ne by done. apply Hg.
Qed.

Lemma groups_full_extend_more k l g :
  groups_full g → is_Some (g !! k) → groups_full (extend k l g).
Proof.
  intros Hg [l0 Hk] k' l'. unfold extend. rewrite Hk. simpl.
  destruct (decide (k = k')) as [<-|Hne].
  - rewrite lookup_insert_eq. intros [= <-].
    destruct (Hg k l0 Hk) as [Hl0 Hl1]. split; [by destruct l0|].
    rewrite length_app. intros Hlen.
    destruct l as [|x l].
    + rewrite (right_id_L [] (++)). apply Hl1. simpl in Hlen. lia.
    + destruct l0; [done|]. simpl in Hlen. lia.
  - rewrite lookup_insert_ne by done. apply Hg.
Qed.

Lemma groups_full_singletons g l :
  groups_full g →
  groups_full (foldl (λ g full_name, extend full_name [full_name] g) g l).
Proof.
  revert g. induction l as [|x l IH]; intros g Hg; simpl; [done|].
  apply IH. by apply groups_full_extend.
Qed.

Lemma absorb_groups_full n sub g sub' g' :
  absorb n sub g = Ok (sub', g') →
  groups_full g → Forall (λ b, b ≠ []) sub →
  groups_full g' ∧ Forall (λ b, b ≠ []) sub'.
Proof.
  revert sub g. induction n as [|i IH]; intros sub g; simpl.
  { by intros [= <- <-]. }
  destruct (sub !! i) as [branch|] eqn:Hi; [|by intros [= <- <-]].
  case_bool_decide as Hlen; [|apply IH].
  destruct branch as [|group_name branch]; [simpl in Hlen; lia|]. simpl.
  destruct (list_remove_elem_of (group_name :: branch) sub)
    as (sub1 & Hrem & Hperm).
  { by eapply list_elem_of_lookup_2. }
  rewrite Hrem. simpl. intros Habs Hg Hsub. eapply IH; [done| |].
  - apply groups_full_extend; [done..|]. simpl in *. lia.
  - rewrite Hperm in Hsub. by inversion Hsub.
Qed.

Lemma length_mjoin_two (ls : list (list string)) :
  1 < length ls → Forall (λ b, b ≠ []) ls → 1 < length (mjoin ls).
Proof.
  destruct ls as [|[|x b1] [|[|y b2] ls]]; simpl; try lia;
    intros _ Hls; repeat (inversion_clear Hls as [|? ? ? Hls']; try done;
                          rename Hls' into Hls).
  rewrite length_app. simpl. lia.
Qed.

Lemma for_each_child_groups_full cs :
  Forall (λ kc : string * WordTrieNode, ∀ cb cbs g cbs' g',
            leaf_inv kc.2 →
            _group_names kc.2 cb cbs g = Ok (cbs', g') →
            groups_full g → Forall (λ b, b ≠ []) cbs →
            groups_full g' ∧
            ((children kc.2 = [] → is_full_name kc.2 = true) →
             Forall (λ b, b ≠ []) cbs')) cs →
  (∀ k c, (k, c) ∈ cs → leaf_inv c ∧
                         (children c = [] → is_full_name c = true)) →
  ∀ sub g sub' g',
    for_each_child
      (λ child_node '(sub_branches, grouped_names),
         _group_names child_node [] sub_branches grouped_names)
      cs (sub, g) = Ok (sub', g') →
    groups_full g → Forall (λ b, b ≠ []) sub →
    groups_full g' ∧ Forall (λ b, b ≠ []) sub'.
Proof.
  induction 1 as [|[k c] cs Hc _ IH]; intros Hleaf sub g sub' g'; simpl.
  { by intros [= <- <-]. }
  destruct (_group_names c [] sub g) as [[sub1 g1]|] eqn:Hcall; [|done].
  simpl. intros Hrest Hg Hsub.
  destruct (Hleaf k c) as [Hlc Hfc]; [left|].
  destruct (Hc [] sub g sub1 g1 Hlc Hcall Hg Hsub) as [Hg1 Hsub1].
  apply (IH (λ k' c' H, Hleaf k' c' (list_elem_of_further _ _ _ H))
            sub1 g1 sub' g' Hrest Hg1 (Hsub1 Hfc)).
Qed.

Lemma group_names_groups_full node :
  ∀ cb cbs g cbs' g',
    leaf_inv node →
    _group_names node cb cbs g = Ok (cbs', g') →
    groups_full g → Forall (λ b, b ≠ []) cbs →
    groups_full g' ∧
    ((children node = [] → is_full_name node = true) →
     Forall (λ b, b ≠ []) cbs').
Proof.
  induction node as [w t f cs IH] using WordTrieNode_ind.
  intros cb cbs g cbs' g' Hleaf. simpl.
  unfold is_branching_point, is_leaf, is_root. simpl.
  inversion_clear Hleaf as [? Hl Hc]. simpl in *.
  case_bool_decide as Hbr.
  - destruct (for_each_child _ cs ([], g)) as [[sub1 g1]|] eqn:Hloop;
      [|done]. simpl.
    destruct (absorb (length sub1) sub1 g1) as [[sub2 g2]|] eqn:Habs;
      [|done]. simpl.
    intros Hres Hg Hcbs.
    destruct (for_each_child_groups_full cs IH (λ k c H, conj (Hc k c H) (Hl k c H))
                [] g sub1 g1 Hloop Hg) as [Hg1 Hsub1]; [constructor|].
    destruct (absorb_groups_full _ _ _ _ _ Habs Hg1 Hsub1) as [Hg2 Hsub2].
    case_bool_decide.
    { simplify_eq. split; [|done]. by apply groups_full_singletons. }
    destruct f; simpl in Hres.
    + simplify_eq. split; [|done]. apply groups_full_extend_more.
      * by apply groups_full_extend.
      * unfold extend. rewrite lookup_insert_eq. by eexists.
    + case_bool_decide as Hlen; simplify_eq.
      * split; [|done].
        pose proof (length_mjoin_two _ Hlen Hsub2) as Hm.
        apply groups_full_extend; [done| |lia]. intros Heq.
        rewrite Heq in Hm. simpl in Hm. lia.
      * split; [done|]. intros _. by apply Forall_app.
  - destruct cs as [|[k c] cs].
    + intros [= <- <-] Hg Hcbs. split; [done|]. intros Hfull.
      apply Forall_app. split; [done|]. constructor; [|done].
      rewrite Hfull by done. by destruct cb.
    + destruct cs; [|simpl in Hbr; lia].
      inversion_clear IH as [|? ? Hcall _]. simpl in Hcall.
      intros Hres Hg Hcbs.
      destruct (Hcall _ _ _ _ _ (Hc k c ltac:(left)) Hres Hg Hcbs)
        as [Hg' Hcbs'].
      split; [done|]. intros _. apply Hcbs'. apply (Hl k c). left.
Qed.

(** [group_names] makes no empty group, and a group of one member is the
    group of that name. *)
Theorem group_names_no_empty_group names sep g k l :
  tools.group_names names sep = Ok g →
  g !! k = Some l →
  l ≠ [] ∧ (length l = 1 → l = [k]).
Proof.
  unfold tools.group_names, group_names.
  destruct (_group_names (root (from_names names sep)) [] [] ∅)
    as [[cbs g']|] eqn:Hcall; [|done].
  simpl. intros [= <-].
  destruct (group_names_groups_full _ _ _ _ _ _
              (from_names_leaf_inv names sep) Hcall) as [Hg _];
    [|constructor|by apply Hg].
  intros k' l' Hk. by rewrite lookup_empty in Hk.
Qed.

Lemma group_names_no_empty_group_witness :
  ["foo"; "foo-bar"; "foo-baz"] ≠ [] ∧
  (length ["foo"; "foo-bar"; "foo-baz"] = 1 →
   ["foo"; "foo-bar"; "foo-baz"] = ["foo"]).
Proof.
  apply (group_names_no_empty_group ["foo"; "foo-bar"; "foo-baz"; "xyz"] "-"
           {[ "foo" := ["foo"; "foo-bar"; "foo-baz"]; "xyz" := ["xyz"] ]}
           "foo" ["foo"; "foo-bar"; "foo-baz"]).
  - vm_compute. reflexivity.
  - reflexivity.
Defined.

(** ** Group names are whole-word prefixes of their members *)

Lemma branch_ok_mono sep Full base base' b :
  base' `prefix_of` base → branch_ok sep Full base b →
  branch_ok sep Full base' b.
Proof.
  intros Hb (ps & -> & Hps & Hhd). exists ps. split; [done|].
  split; [|done]. eapply Forall_impl; [done|]. simpl.
  intros p (? & ? & ?). split_and!; [by etrans | done | done].
Qed.

Lemma chain_ok_branch sep Full base path cb :
  chain_ok sep Full base path cb → branch_ok sep Full base cb.
Proof. intros (ps & ? & ? & _). by exists ps. Qed.

Lemma chain_ok_mono sep Full base path path' cb :
  path `prefix_of` path' → chain_ok sep Full base path cb →
  chain_ok sep Full base path' cb.
Proof.
  intros Hp (ps & ? & ? & Hps). exists ps. split_and!; [done..|].
  eapply Forall_impl; [done|]. simpl. intros p ?. by etrans.
Qed.

Lemma chain_ok_nil sep Full base path : chain_ok sep Full base path [].
Proof.
  exists []. split_and!; [done| |constructor].
  split; [constructor | by intros ? ? [=]].
Qed.

Lemma chain_ok_snoc sep Full base path cb :
  chain_ok sep Full base path cb →
  base `prefix_of` path → path ≠ [] → Full path →
  chain_ok sep Full base path (cb ++ [join sep path]).
Proof.
  intros (ps & -> & [Hps Hhd] & Hle) Hb Hne Hfull. exists (ps ++ [path]).
  split_and!.
  - by rewrite fmap_app.
  - split.
    + apply Forall_app. split; [done|]. by repeat constructor.
    + intros p0 ps' Heq. destruct ps as [|p1 ps]; simplify_eq/=.
      { constructor. }
      apply Forall_app. split; [by apply (Hhd p0 ps)|].
      constructor; [|constructor]. by inversion Hle.
  - apply Forall_app. split; [done|]. by repeat constructor.
Qed.

Lemma branch_ok_members sep Full base b m :
  branch_ok sep Full base b → m ∈ b →
  ∃ p, m = join sep p ∧ base `prefix_of` p ∧ p ≠ [] ∧ Full p.
Proof.
  intros (ps & -> & [Hps _]) (p & -> & Hp)%list_elem_of_fmap.
  exists p. split; [done|]. by apply (proj1 (Forall_forall _ _) Hps).
Qed.

Lemma groups_anchored_extend sep Full k l g :
  groups_anchored sep Full g →
  (∀ m, m ∈ l → anchored sep Full k m) →
  groups_anchored sep Full (extend k l g).
Proof.
  intros Hg Hl k' l' m. unfold extend.
  destruct (decide (k = k')) as [<-|Hne].
  - rewrite lookup_insert_eq. intros [= <-] [Hm|Hm]%elem_of_app; [|auto].
    destruct (g !! k) as [l0|] eqn:Hk; simpl in Hm; [by eapply Hg|].
    by apply elem_of_nil in Hm.
  - rewrite lookup_insert_ne by done. apply Hg.
Qed.

Lemma groups_anchored_singletons sep Full g l :
  groups_anchored sep Full g →
  (∀ m, m ∈ l → anchored sep Full m m) →
  groups_anchored sep Full
    (foldl (λ g full_name, extend full_name [full_name] g) g l).
Proof.
  revert g. induction l as [|x l IH]; intros g Hg Hl; simpl; [done|].
  apply IH; [|intros m ?; apply Hl; by right].
  apply groups_anchored_extend; [done|].
  intros m ->%list_elem_of_singleton. apply Hl. left.
Qed.

Lemma absorb_anchored sep Full base n sub g sub' g' :
  absorb n sub g = Ok (sub', g') →
  Forall (branch_ok sep Full base) sub → groups_anchored sep Full g →
  Forall (branch_ok sep Full base) sub' ∧ groups_anchored sep Full g'.
Proof.
  revert sub g. induction n as [|i IH]; intros sub g; simpl.
  { by intros [= <- <-]. }
  destruct (sub !! i) as [branch|] eqn:Hi; [|by intros [= <- <-]].
  case_bool_decide as Hlen; [|apply IH].
  destruct branch as [|group_name branch]; [simpl in Hlen; lia|]. simpl.
  destruct (list_remove_elem_of (group_name :: branch) sub)
    as (sub1 & Hrem & Hperm).
  { by eapply list_elem_of_lookup_2. }
  rewrite Hrem. simpl. intros Habs Hsub Hg.
  rewrite Hperm in Hsub. inversion_clear Hsub as [|? ? Hb Hsub1].
  eapply IH; [done | done |].
  apply groups_anchored_extend; [done|].
  destruct Hb as (ps & Heq & [Hps Hhd]).
  destruct ps as [|p0 ps]; [done|]. simpl in Heq.
  injection Heq as -> ->. specialize (Hhd p0 ps eq_refl).
  inversion_clear Hps as [|? ? (_ & Hp0 & Hf0) Hps'].
  intros m [->|(p & -> & Hp)%list_elem_of_fmap]%elem_of_cons.
  - by exists p0, p0.
  - exists p0, p. split_and!; [done| |done|done|].
    + by apply (proj1 (Forall_forall _ _) Hhd).
    + by apply (proj1 (Forall_forall _ _) Hps').
Qed.

Lemma for_each_child_anchored sep Full path cs :
  Forall (λ kc : string * WordTrieNode,
            ∀ path base cb cbs g cbs' g',
              text_inv sep path kc.2 →
              (∀ q, q ∈ full_paths kc.2 → Full (path ++ q)) →
              (path = [] → is_full_name kc.2 = false ∧ is_root kc.2 = true) →
              base `prefix_of` path →
              chain_ok sep Full base path cb →
              Forall (branch_ok sep Full base) cbs →
              groups_anchored sep Full g →
              _group_names kc.2 cb cbs g = Ok (cbs', g') →
              Forall (branch_ok sep Full base) cbs' ∧
              groups_anchored sep Full g') cs →
  (∀ k c, (k, c) ∈ cs →
          text_inv sep (path ++ [k]) c ∧
          ∀ q, q ∈ full_paths c → Full ((path ++ [k]) ++ q)) →
  ∀ sub g sub' g',
    for_each_child
      (λ child_node '(sub_branches, grouped_names),
         _group_names child_node [] sub_branches grouped_names)
      cs (sub, g) = Ok (sub', g') →
    Forall (branch_ok sep Full path) sub → groups_anchored sep Full g →
    Forall (branch_ok sep Full path) sub' ∧ groups_anchored sep Full g'.
Proof.
  induction 1 as [|[k c] cs Hc _ IH]; intros Hcs sub g sub' g'; simpl.
  { by intros [= <- <-]. }
  destruct (_group_names c [] sub g) as [[sub1 g1]|] eqn:Hcall; [|done].
  simpl. intros Hrest Hsub Hg.
  destruct (Hcs k c) as [Hinv Hfull]; [left|].
  destruct (Hc (path ++ [k]) path [] sub g sub1 g1) as [Hsub1 Hg1];
    [done | done | by destruct path | by exists [k] | apply chain_ok_nil
    | done | done | done |].
  apply (IH (λ k' c' H, Hcs k' c' (list_elem_of_further _ _ _ H))
            sub1 g1 sub' g' Hrest Hsub1 Hg1).
Qed.

Lemma group_names_anchored sep Full node :
  ∀ path base cb cbs g cbs' g',
    text_inv sep path node →
    (∀ q, q ∈ full_paths node → Full (path ++ q)) →
    (path = [] → is_full_name node = false ∧ is_root node = true) →
    base `prefix_of` path →
    chain_ok sep Full base path cb →
    Forall (branch_ok sep Full base) cbs →
    groups_anchored sep Full g →
    _group_names node cb cbs g = Ok (cbs', g') →
    Forall (branch_ok sep Full base) cbs' ∧ groups_anchored sep Full g'.
Proof.
  induction node as [w t f cs IH] using WordTrieNode_ind.
  intros path base cb cbs g cbs' g' Hinv Hfull Hroot Hbase Hcb Hcbs Hg.
  pose proof (text_inv_text _ _ _ Hinv) as Ht. simpl in Ht.
  assert (∀ k c, (k, c) ∈ cs →
            text_inv sep (path ++ [k]) c ∧
            ∀ q, q ∈ full_paths c → Full ((path ++ [k]) ++ q)) as Hcs.
  { intros k c Hin. inversion_clear Hinv as [? ? _ _ Hc]. split; [eauto|].
    intros q Hq. rewrite <- (assoc_L (++)). apply Hfull.
    apply elem_of_full_paths. right. by exists k, c, q. }
  assert (f = true → path ≠ [] ∧ Full path) as Hself.
  { intros ->. split.
    - intros ->. by destruct Hroot.
    - rewrite <- (right_id_L [] (++) path). apply Hfull.
      apply elem_of_full_paths. by left. }
  assert (path = [] → w = "") as Hword.
  { intros Hp. destruct (Hroot Hp) as [_ Hr].
    by apply bool_decide_eq_true in Hr. }
  simpl in Hroot. clear Hroot.
  simpl. unfold is_branching_point, is_leaf, is_root. simpl.
  case_bool_decide as Hbr.
  - destruct (for_each_child _ cs ([], g)) as [[sub1 g1]|] eqn:Hloop;
      [|done]. simpl.
    destruct (absorb (length sub1) sub1 g1) as [[sub2 g2]|] eqn:Habs;
      [|done]. simpl. intros Hres.
    destruct (for_each_child_anchored sep Full path cs IH Hcs
                [] g sub1 g1 Hloop) as [Hsub1 Hg1]; [constructor | done |].
    destruct (absorb_anchored sep Full path _ _ _ _ _ Habs Hsub1 Hg1)
      as [Hsub2 Hg2].
    assert (∀ m, m ∈ mjoin sub2 →
              ∃ p, m = join sep p ∧ path `prefix_of` p ∧ p ≠ [] ∧ Full p)
      as Hmem.
    { intros m (b & Hm & Hb)%list_elem_of_join.
      eapply branch_ok_members; [|done].
      by apply (proj1 (Forall_forall _ _) Hsub2). }
    case_bool_decide as Hw.
    { simplify_eq. split; [done|].
      apply groups_anchored_singletons; [done|].
      intros m (p & -> & _ & ? & ?)%Hmem. by exists p, p. }
    assert (path ≠ []) as Hpath by (intros Hp; by apply Hw, Hword).
    assert (∀ m, m ∈ mjoin sub2 → anchored sep Full t m) as Hanch.
    { intros m (p & -> & ? & ? & ?)%Hmem. by exists path, p. }
    destruct f; simpl in Hres.
    + simplify_eq. split; [done|].
      apply groups_anchored_extend; [|done].
      apply groups_anchored_extend; [done|].
      intros m ->%list_elem_of_singleton. destruct Hself as [_ ?]; [done|].
      by exists path, path.
    + case_bool_decide; simplify_eq.
      * split; [done|]. by apply groups_anchored_extend.
      * split; [|done]. apply Forall_app. split; [done|].
        eapply Forall_impl; [done|]. intros b. by apply branch_ok_mono.
  - assert (chain_ok sep Full base path (if f then cb ++ [t] else cb))
      as Hcb'.
    { destruct f; [|done]. destruct Hself as [? ?]; [done|].
      rewrite Ht. by apply chain_ok_snoc. }
    destruct cs as [|[k c] cs].
    + intros [= <- <-]. split; [|done]. apply Forall_app. split; [done|].
      constructor; [|done]. by eapply chain_ok_branch.
    + destruct cs; [|simpl in Hbr; lia].
      inversion_clear IH as [|? ? Hcall _]. simpl in Hcall. intros Hres.
      destruct (Hcs k c) as [Hinvc Hfullc]; [left|].
      apply (Hcall (path ++ [k]) base (if f then cb ++ [t] else cb)
               cbs g cbs' g');
        [done | done | by destruct path | by apply prefix_app_r | | done..].
      eapply chain_ok_mono; [|done]. by exists [k].
Qed.

Lemma join_app sep p q :
  p ≠ [] → q ≠ [] → join sep (p ++ q) = join sep p +:+ String sep (join sep q).
Proof.
  induction p as [|w p IH]; [done|]. intros _ Hq.
  destruct p as [|w' p].
  - simpl. by destruct q.
  - change ((w :: w' :: p) ++ q) with (w :: ((w' :: p) ++ q)).
    rewrite !join_cons by done. rewrite IH by done.
    by rewrite string_app_assoc.
Qed.

Lemma group_names_word_prefix names sep g k l m :
  tools.group_names names sep = Ok g →
  g !! k = Some l → m ∈ l →
  ∃ p q, p ≠ [] ∧ split sep m = p ++ q ∧ k = join sep p ∧ m ∈ names.
Proof.
  unfold tools.group_names, group_names.
  destruct (_group_names (root (from_names names sep)) [] [] ∅)
    as [[cbs g']|] eqn:Hcall; [|done].
  simpl. intros [= <-] Hk Hm.
  destruct (foldl_insert_root (new sep) names) as [Hw Hf].
  destruct (group_names_anchored sep
              (λ p, p ∈ full_paths (root (from_names names sep)))
              (root (from_names names sep)) [] [] [] [] ∅ cbs g')
    as [_ Hg];
    [apply from_names_text_inv | done | | done | apply chain_ok_nil
    | constructor | | done |].
  { intros _. unfold is_root, from_names. by rewrite Hw, Hf. }
  { intros k' l' m' Hk'. by rewrite lookup_empty in Hk'. }
  destruct (Hg k l m Hk Hm) as (pk & pm & Hpk & [q ->] & -> & -> & Hfull).
  apply from_names_full_paths in Hfull as (name & Hname & Heq).
  exists pk, q. rewrite Heq, join_split. by rewrite <- Heq.
Qed.

(** In what [group_names] returns, the name of a group is spelled by the
    first words of each of its members: a member is the group name itself
    or the group name, the delimiter and more. *)
Theorem group_names_prefix names sep g k l m :
  tools.group_names names sep = Ok g →
  g !! k = Some l → m ∈ l →
  ∃ p, p ≠ [] ∧ p `prefix_of` split sep m ∧ k = join sep p ∧
       (m = k ∨ ∃ rest, m = k +:+ String sep rest).
Proof.
  intros Hg Hk Hm.
  destruct (group_names_word_prefix names sep g k l m Hg Hk Hm)
    as (p & q & Hp & Hsplit & -> & _).
  exists p. split_and!; [done | by exists q | done |].
  rewrite <- (join_split sep m), Hsplit.
  destruct q as [|w q]; [left; by rewrite (right_id_L [] (++))|].
  right. exists (join sep (w :: q)). by apply join_app.
Qed.

Lemma group_names_prefix_witness :
  ∃ p, p ≠ [] ∧ p `prefix_of` split "_" "alcohol_product_ind" ∧
       "alcohol" = join "_" p ∧
       ("alcohol_product_ind" = "alcohol" ∨
        ∃ rest, "alcohol_product_ind" = "alcohol" +:+ String "_" rest).
Proof.
  apply (group_names_prefix EXAMPLE_NAMES "_" EXPECTED_GROUPS "alcohol"
           ["alcohol_direct_payment_ind"; "alcohol_product_ind"]).
  - vm_cast_no_check (eq_refl (Ok EXPECTED_GROUPS)).
  - reflexivity.
  - apply list_elem_of_further, list_elem_of_here.
Defined.

(** ** More on moving a name *)

Lemma move_name_ok now task name src tgt l l' :
  result task !! src = Some l → list_remove name l = Ok l' →
  move_name now task name src tgt =
    let task' := mkGroupingTask (input_data task)
                   (moved name src tgt l' (result task))
                   (created_at task) (completed_at task) now in
    Ok (mkResponse (TaskData task') HTTP_200_OK, task').
Proof.
  intros Hsrc Hrem. unfold move_name, getitem. rewrite Hsrc. simpl.
  rewrite Hrem.
  set (r2 := if bool_decide (l' = [])
             then delete src (<[src := l']> (result task))
             else <[src := l']> (result task)).
  assert (r2 = if decide (l' = []) then delete src (result task)
               else <[src := l']> (result task)) as Hr2.
  { unfold r2. case_bool_decide.
    - rewrite decide_True by done. apply delete_insert_eq.
    - by rewrite decide_False. }
  unfold moved. rewrite <- Hr2. clearbody r2. unfold extend.
  case_bool_decide as Htgt.
  - destruct Htgt as [v Hv]. rewrite Hv. done.
  - rewrite lookup_insert_eq. simpl.
    apply eq_None_not_Some in Htgt. rewrite Htgt. simpl.
    by rewrite insert_insert_eq.
Qed.

Lemma move_name_cases now task name src tgt :
  (∃ l l', result task !! src = Some l ∧ list_remove name l = Ok l' ∧
           name ∈ l ∧
           move_name now task name src tgt =
             let task' := mkGroupingTask (input_data task)
                            (moved name src tgt l' (result task))
                            (created_at task) (completed_at task) now in
             Ok (mkResponse (TaskData task') HTTP_200_OK, task')) ∨
  (¬ (∃ l, result task !! src = Some l ∧ name ∈ l) ∧
   ∃ response, move_name now task name src tgt = Ok (response, task) ∧
               status response = HTTP_400_BAD_REQUEST).
Proof.
  destruct (result task !! src) as [l|] eqn:Hsrc.
  - destruct (decide (name ∈ l)) as [Hin|Hnin].
    + left. destruct (list_remove_elem_of name l Hin) as (l' & Hrem & _).
      exists l, l'. split_and!; [done..|].
      exact (move_name_ok now task name src tgt l l' Hsrc Hrem).
    + right. split; [by intros (? & [= <-] & ?)|].
      unfold move_name, getitem. rewrite Hsrc. simpl.
      rewrite (list_remove_not_elem_of name l Hnin). by eexists.
  - right. split; [by intros (? & [=] & _)|].
    unfold move_name, getitem. rewrite Hsrc. by eexists.
Qed.

(** [move_name] lets no exception escape; it answers 200 exactly when the
    source group exists and holds the name, and 400 otherwise. *)
Theorem move_name_answers now task name source_group_name target_group_name :
  ∃ response task',
    move_name now task name source_group_name target_group_name
      = Ok (response, task') ∧
    (status response = HTTP_200_OK ∨ status response = HTTP_400_BAD_REQUEST) ∧
    (status response = HTTP_200_OK ↔
     ∃ l, result task !! source_group_name = Some l ∧ name ∈ l).
Proof.
  destruct (move_name_cases now task name source_group_name target_group_name)
    as [(l & l' & Hsrc & _ & Hin & Hmove)|(Hno & response & Hmove & Hst)].
  - eexists _, _. split; [exact Hmove|]. simpl. split; [by left|].
    split; [intros _; by exists l | done].
  - exists response, task. split; [done|]. rewrite Hst.
    split; [by right|]. split; [done | by intros ?%Hno].
Qed.

Lemma members_insert_delete k v (g : gmap string (list string)) :
  members (<[k := v]> g) ≡ₚ v ++ members (delete k g).
Proof.
  rewrite <- (insert_delete_eq g). unfold members.
  by rewrite map_to_list_insert by apply lookup_delete_eq.
Qed.

Lemma members_moved name src tgt l l' r :
  r !! src = Some l → l ≡ₚ name :: l' →
  members (moved name src tgt l' r) ≡ₚ members r.
Proof.
  intros Hsrc Hperm. unfold moved. rewrite members_extend.
  rewrite (members_lookup r src l Hsrc), Hperm. case_decide as Hl'.
  - subst l'. simpl. by rewrite <- Permutation_cons_append.
  - rewrite members_insert_delete. simpl.
    by rewrite <- Permutation_cons_append.
Qed.

(** Whatever [move_name] answers, the stored groups hold together the
    same names as before, each as often as before. *)
Theorem move_name_keeps_members now task name source_group_name
    target_group_name response task' :
  move_name now task name source_group_name target_group_name
    = Ok (response, task') →
  members (result task') ≡ₚ members (result task).
Proof.
  destruct (move_name_cases now task name source_group_name target_group_name)
    as [(l & l' & Hsrc & Hrem & Hin & ->)|(_ & response' & -> & _)].
  - simpl. intros [= _ <-]. simpl.
    destruct (list_remove_elem_of name l Hin) as (l'' & Hrem' & Hperm).
    rewrite Hrem in Hrem'. injection Hrem' as <-.
    by eapply members_moved.
  - by intros [= _ <-].
Qed.

Lemma move_name_keeps_members_witness :
  members (result (workflow_task_moved 7)) ≡ₚ members (result workflow_task).
Proof.
  apply (move_name_keeps_members 7 workflow_task "xyz" "xyz" "foo"
           (mkResponse (TaskData (workflow_task_moved 7)) HTTP_200_OK)
           (workflow_task_moved 7)).
  vm_compute. reflexivity.
Defined.

(** If no stored group is empty, [move_name] leaves none empty. *)
Theorem move_name_no_empty_group now task name source_group_name
    target_group_name response task' :
  (∀ k l, result task !! k = Some l → l ≠ []) →
  move_name now task name source_group_name target_group_name
    = Ok (response, task') →
  ∀ k l, result task' !! k = Some l → l ≠ [].
Proof.
  intros Hfull.
  destruct (move_name_cases now task name source_group_name target_group_name)
    as [(l0 & l' & Hsrc & Hrem & Hin & ->)|(_ & response' & -> & _)].
  - simpl. intros [= _ <-] k l. simpl. unfold moved, extend.
    destruct (decide (target_group_name = k)) as [<-|Hne].
    { rewrite lookup_insert_eq. intros [= <-]. by intros [? [=]]%app_eq_nil. }
    rewrite lookup_insert_ne by done. case_decide as Hl'.
    + destruct (decide (source_group_name = k)) as [<-|Hne'].
      * by rewrite lookup_delete_eq.
      * rewrite lookup_delete_ne by done. apply Hfull.
    + destruct (decide (source_group_name = k)) as [<-|Hne'].
      * rewrite lookup_insert_eq. by intros [= <-].
      * rewrite lookup_insert_ne by done. apply Hfull.
  - intros [= _ <-]. apply Hfull.
Qed.

Lemma move_name_no_empty_group_witness :
  result (workflow_task_moved 7) !! "foo"
    = Some ["foo"; "foo-bar"; "foo-baz"; "xyz"] ∧
  ["foo"; "foo-bar"; "foo-baz"; "xyz"] ≠ [].
Proof.
  split; [reflexivity|].
  apply (move_name_no_empty_group 7 workflow_task "xyz" "xyz" "foo"
           (mkResponse (TaskData (workflow_task_moved 7)) HTTP_200_OK)
           (workflow_task_moved 7)) with (k := "foo").
  - intros k l Hk. unfold workflow_task in Hk. simpl in Hk.
    apply lookup_insert_Some in Hk as [[_ <-]|[_ Hk]]; [done|].
    apply lookup_singleton_Some in Hk as [_ <-]. done.
  - vm_compute. reflexivity.
  - reflexivity.
Defined.

(** ** Processing a grouping task *)

Lemma group_names_returns names sep : ∃ g, tools.group_names names sep = Ok g.
Proof.
  destruct (group_names_members names sep) as (g & Hg & _). by exists g.
Qed.

(** A stored task that has no result and no completion time gets the
    grouping of its names as its result and [now] as its completion time,
    and is saved; the other fields of the task stay. *)
Theorem process_pending_task now saved_at db grouping_task_id task :
  db !! grouping_task_id = Some task →
  result task = ∅ →
  completed_at task = None →
  ∃ g,
    tools.group_names (input_names (input_data task))
                      (input_word_delimiter (input_data task)) = Ok g ∧
    tasks.process_grouping_task_async now saved_at db grouping_task_id =
      Ok (<[grouping_task_id :=
              mkGroupingTask (input_data task) g (created_at task)
                             (Some now) saved_at]> db).
Proof.
  intros Hdb Hres Hcompl.
  destruct (group_names_returns (input_names (input_data task))
              (input_word_delimiter (input_data task))) as (g & Hg).
  exists g. split; [done|].
  unfold tasks.process_grouping_task_async, tasks.get_uncompleted.
  rewrite Hdb. rewrite !bool_decide_eq_true_2 by done. simpl.
  by rewrite Hg.
Qed.

Lemma process_pending_task_witness :
  ∃ g,
    tools.group_names ["foo"; "foo-bar"; "foo-baz"; "xyz"] "-" = Ok g ∧
    tasks.process_grouping_task_async 2 3
      {[ 5 := mkGroupingTask
                (mkInputData "-" ["foo"; "foo-bar"; "foo-baz"; "xyz"])
                ∅ 1 None 1 ]} 5 =
      Ok (<[5 := mkGroupingTask
                   (mkInputData "-" ["foo"; "foo-bar"; "foo-baz"; "xyz"])
                   g 1 (Some 2) 3]>
            {[ 5 := mkGroupingTask
                      (mkInputData "-" ["foo"; "foo-bar"; "foo-baz"; "xyz"])
                      ∅ 1 None 1 ]}).
Proof.
  apply (process_pending_task 2 3
           {[ 5 := mkGroupingTask
                     (mkInputData "-" ["foo"; "foo-bar"; "foo-baz"; "xyz"])
                     ∅ 1 None 1 ]} 5
           (mkGroupingTask
              (mkInputData "-" ["foo"; "foo-bar"; "foo-baz"; "xyz"])
              ∅ 1 None 1)); reflexivity.
Defined.

Lemma process_not_pending now saved_at db grouping_task_id :
  tasks.get_uncompleted db grouping_task_id = None →
  tasks.process_grouping_task_async now saved_at db grouping_task_id = Ok db.
Proof. unfold tasks.process_grouping_task_async. by intros ->. Qed.

(** [process_grouping_task_async] raises nothing, leaves every other task
    as it is, leaves alone a task that is missing, has a result or is
    completed, and does nothing when it is run again on the table it
    produced. *)
Theorem process_task_once now saved_at db grouping_task_id :
  ∃ db',
    tasks.process_grouping_task_async now saved_at db grouping_task_id
      = Ok db' ∧
    (∀ j, j ≠ grouping_task_id → db' !! j = db !! j) ∧
    ((∀ task, db !! grouping_task_id = Some task →
              result task ≠ ∅ ∨ completed_at task ≠ None) → db' = db) ∧
    (∀ now' saved_at',
       tasks.process_grouping_task_async now' saved_at' db' grouping_task_id
         = Ok db').
Proof.
  destruct (tasks.get_uncompleted db grouping_task_id) as [task|] eqn:Hget.
  - unfold tasks.get_uncompleted in Hget.
    destruct (db !! grouping_task_id) as [task'|] eqn:Hdb; [|done].
    destruct (bool_decide (result task' = ∅)
              && bool_decide (completed_at task' = None)) eqn:Hpending;
      [|done].
    injection Hget as ->.
    apply andb_true_iff in Hpending as [Hres Hcompl].
    apply bool_decide_eq_true in Hres, Hcompl.
    destruct (group_names_returns (input_names (input_data task))
                (input_word_delimiter (input_data task))) as (g & Hg).
    unfold tasks.process_grouping_task_async, tasks.get_uncompleted.
    rewrite Hdb. rewrite !bool_decide_eq_true_2 by done. simpl.
    rewrite Hg. simpl.
    eexists. split_and!; [done|..].
    + intros j Hj. by rewrite lookup_insert_ne.
    + intros Hnot. by destruct (Hnot task eq_refl).
    + intros now' saved_at'. rewrite lookup_insert_eq. simpl.
      by rewrite andb_false_r.
  - exists db. rewrite process_not_pending by done.
    split_and!; [done..|]. intros. by apply process_not_pending.
Qed.

Lemma process_task_once_witness :
  ∃ db',
    tasks.process_grouping_task_async 2 3 {[ 5 := workflow_task ]} 5
      = Ok db' ∧
    db' = {[ 5 := workflow_task ]}.
Proof.
  destruct (process_task_once 2 3 {[ 5 := workflow_task ]} 5)
    as (db' & Hrun & _ & Hsame & _).
  exists db'. split; [exact Hrun|]. apply Hsame.
  intros task [_ <-]%lookup_singleton_Some. right. discriminate.
Defined.

(** ** A name alone under its first word *)

Lemma group_names_chain name node cb cbs g :
  chain_to name node →
  _group_names node cb cbs g = Ok (cbs ++ [cb ++ [name]], g).
Proof.
  induction 1 as [[w t f cs] Hcs Hf Ht|[w t f cs] k c Hcs Hf _ IH];
    simpl in *; subst; simpl; unfold is_branching_point, is_leaf; simpl.
  - done.
  - apply IH.
Qed.

Lemma group_names_branches_grow node :
  ∀ cb cbs g cbs' g',
    _group_names node cb cbs g = Ok (cbs', g') → ∃ new, cbs' = cbs ++ new.
Proof.
  induction node as [w t f cs IH] using WordTrieNode_ind.
  intros cb cbs g cbs' g'. simpl.
  unfold is_branching_point, is_leaf, is_root. simpl.
  case_bool_decide as Hbr.
  - destruct (for_each_child _ cs ([], g)) as [[sub1 g1]|]; [|done]. simpl.
    destruct (absorb (length sub1) sub1 g1) as [[sub2 g2]|]; [|done]. simpl.
    case_bool_decide.
    { intros [= <- _]. exists []. by rewrite (right_id_L [] (++)). }
    destruct (f || bool_decide (1 < length sub2)).
    + intros [= <- _]. exists []. by rewrite (right_id_L [] (++)).
    + intros [= <- _]. by exists sub2.
  - destruct cs as [|[k c] cs].
    + intros [= <- _]. by eexists.
    + inversion_clear IH as [|? ? Hc _]. apply Hc.
Qed.

Lemma for_each_child_grow cs sub g sub' g' :
  for_each_child
    (λ child_node '(sub_branches, grouped_names),
       _group_names child_node [] sub_branches grouped_names)
    cs (sub, g) = Ok (sub', g') →
  ∃ new, sub' = sub ++ new.
Proof.
  revert sub g. induction cs as [|[k c] cs IH]; intros sub g; simpl.
  { intros [= <- _]. exists []. by rewrite (right_id_L [] (++)). }
  destruct (_group_names c [] sub g) as [[sub1 g1]|] eqn:Hcall; [|done].
  simpl. intros (new2 & ->)%IH.
  apply group_names_branches_grow in Hcall as (new1 & ->).
  exists (new1 ++ new2). by rewrite (assoc_L (++)).
Qed.

Lemma for_each_child_chain name cs k c sub g sub' g' :
  (k, c) ∈ cs → chain_to name c →
  for_each_child
    (λ child_node '(sub_branches, grouped_names),
       _group_names child_node [] sub_branches grouped_names)
    cs (sub, g) = Ok (sub', g') →
  [name] ∈ sub'.
Proof.
  intros Hin Hchain. revert sub g.
  induction cs as [|[k' c'] cs IH]; intros sub g;
    [by apply elem_of_nil in Hin|].
  simpl. apply elem_of_cons in Hin as [[= <- <-]|Hin].
  - rewrite (group_names_chain name c [] sub g Hchain). simpl.
    intros (new & ->)%for_each_child_grow.
    apply elem_of_app. left. apply elem_of_app. right. left.
  - destruct (_group_names c' [] sub g) as [[sub1 g1]|]; [|done].
    simpl. by apply IH.
Qed.

Lemma extend_keeps_member k l g k0 x :
  (∃ l0, g !! k0 = Some l0 ∧ x ∈ l0) →
  ∃ l0, extend k l g !! k0 = Some l0 ∧ x ∈ l0.
Proof.
  intros (l0 & Hk0 & Hx). unfold extend.
  destruct (decide (k = k0)) as [->|Hne].
  - rewrite lookup_insert_eq, Hk0. eexists. split; [done|].
    apply elem_of_app. by left.
  - rewrite lookup_insert_ne by done. by exists l0.
Qed.

Lemma singletons_member g l x :
  x ∈ l →
  ∃ l0, foldl (λ g full_name, extend full_name [full_name] g) g l !! x
          = Some l0 ∧ x ∈ l0.
Proof.
  assert (∀ l g, (∃ l0, g !! x = Some l0 ∧ x ∈ l0) →
            ∃ l0, foldl (λ g full_name, extend full_name [full_name] g) g l
                    !! x = Some l0 ∧ x ∈ l0) as Hkeep.
  { clear. induction l as [|y l IH]; intros g Hg; simpl; [done|].
    by apply IH, extend_keeps_member. }
  revert g. induction l as [|y l IH]; intros g; [by intros ?%elem_of_nil|].
  intros [->|Hx]%elem_of_cons; simpl; [|by apply IH].
  apply Hkeep. unfold extend. rewrite lookup_insert_eq. eexists.
  split; [done|]. apply elem_of_app. right. left.
Qed.

(** At a root that branches, a chain below a child of the root that ends
    in the one name [name] gives [name] a group of its own name. *)
Lemma group_names_root_chain (t : WordTrie) name k c g :
  is_root (root t) = true → 1 < length (children (root t)) →
  (k, c) ∈ children (root t) → chain_to name c →
  group_names t = Ok g →
  ∃ l, g !! name = Some l ∧ name ∈ l.
Proof.
  destruct t as [[w tx f cs] sep]. unfold group_names. simpl.
  unfold is_branching_point, is_root. simpl.
  intros Hroot Hlen Hin Hchain. rewrite bool_decide_eq_true_2 by done.
  destruct (for_each_child _ cs ([], ∅)) as [[sub1 g1]|] eqn:Hloop; [|done].
  simpl. destruct (absorb_filter (length sub1) sub1 [] g1) as (g2 & Habs);
    [done | constructor |].
  rewrite (right_id_L [] (++)) in Habs. rewrite Habs. simpl.
  rewrite Hroot. simpl. intros [= <-]. apply singletons_member.
  apply list_elem_of_join. exists [name]. split; [left|].
  apply list_elem_of_filter. split; [simpl; lia|].
  by eapply for_each_child_chain.
Qed.

Lemma find_node_snoc p k node :
  find_node (p ++ [k]) node =
    match find_node p node with
    | Some n => children_get k (children n)
    | None => None
    end.
Proof.
  revert node. induction p as [|w p IH]; intros node; simpl.
  - by destruct (children_get k (children node)).
  - destruct (children_get w (children node)); [apply IH | done].
Qed.

Lemma keys_inv_find_node p node n :
  keys_inv node → find_node p node = Some n → keys_inv n.
Proof.
  revert node. induction p as [|w p IH]; intros node Hinv; simpl.
  - by intros [= <-].
  - destruct (children_get w (children node)) as [c|] eqn:Hget; [|done].
    apply children_get_Some in Hget. destruct Hinv as [node _ Hc].
    apply IH. eauto.
Qed.

Lemma children_get_elem_of k c d :
  NoDup d.*1 → (k, c) ∈ d → children_get k d = Some c.
Proof.
  intros Hnd Hin. destruct (children_get k d) as [c'|] eqn:Hget.
  - apply children_get_Some in Hget. f_equal.
    by eapply NoDup_keys_agree.
  - apply children_get_None in Hget. destruct Hget.
    by apply (list_elem_of_fmap_2 fst) in Hin.
Qed.

Lemma single_child k c d :
  NoDup d.*1 → children_get k d = Some c →
  (∀ k' c', (k', c') ∈ d → k' = k) → d = [(k, c)].
Proof.
  intros Hnd Hget Hall. destruct d as [|[k1 c1] d]; [done|].
  assert (k1 = k) as -> by (apply (Hall k1 c1); left).
  simpl in Hget. rewrite decide_True in Hget by done. injection Hget as ->.
  destruct d as [|[k2 c2] d]; [done|].
  assert (k2 = k) as -> by (apply (Hall k2 c2); right; left).
  csimpl in Hnd. apply NoDup_cons in Hnd as [Hk _]. destruct Hk. left.
Qed.

Lemma first_word_head sep name : head (split sep name) = Some (first_word sep name).
Proof.
  unfold first_word. pose proof (split_not_nil sep name).
  by destruct (split sep name).
Qed.

Lemma prefix_head {A} (p q : list A) x :
  p `prefix_of` q → head p = Some x → head q = Some x.
Proof. intros [k ->]. by destruct p. Qed.

Section own_word.
Context (names : list string) (sep : ascii) (name : string).
Hypothesis Hname : name ∈ names.
Hypothesis Halone :
  ∀ name', name' ∈ names →
           first_word sep name' = first_word sep name → name' = name.

Lemma own_word_prefix q :
  is_Some (find_node q (root (from_names names sep))) →
  head q = Some (first_word sep name) →
  q `prefix_of` split sep name.
Proof using Halone.
  intros [->|(name' & Hname' & Hq)]%find_node_prefix Hhd; [done|].
  rewrite <- (Halone name' Hname'); [done|].
  pose proof (prefix_head _ _ _ Hq Hhd) as Hhd'.
  rewrite first_word_head in Hhd'. by injection Hhd'.
Qed.

Lemma own_word_chain rest :
  ∀ p n,
    split sep name = p ++ rest → p ≠ [] →
    find_node p (root (from_names names sep)) = Some n →
    chain_to name n.
Proof using Hname Halone.
  induction rest as [|k rest IH]; intros p n Hsplit Hp Hfind.
  - rewrite (right_id_L [] (++)) in Hsplit. subst p.
    pose proof (from_names_marks names sep name Hname) as Hmark.
    apply has_name_find_node in Hmark as (n' & Hfind' & Hfull).
    rewrite Hfind in Hfind'. injection Hfind' as <-.
    destruct (find_node_text_inv sep [] _ _ _
                (from_names_text_inv names sep) Hfind) as [Htext _].
    apply text_inv_text in Htext. simpl in Htext.
    rewrite join_split in Htext.
    apply chain_to_leaf; [|done..].
    destruct (children n) as [|[k c] cs] eqn:Hcs; [done|]. exfalso.
    apply (prefix_snoc_not (split sep name) k).
    apply own_word_prefix.
    + rewrite find_node_snoc, Hfind, Hcs. simpl.
      rewrite decide_True by done. by eexists.
    + pose proof (first_word_head sep name).
      by destruct (split sep name).
  - assert (head p = Some (first_word sep name)) as Hhd.
    { pose proof (first_word_head sep name) as Hh. rewrite Hsplit in Hh.
      by destruct p. }
    assert (is_Some (find_node (p ++ [k])
                       (root (from_names names sep)))) as [c Hc].
    { apply (prefix_find_node names sep _ name Hname).
      rewrite Hsplit. exists rest. by rewrite <- (assoc_L (++)). }
    pose proof Hc as Hget. rewrite find_node_snoc, Hfind in Hget.
    pose proof (keys_inv_find_node _ _ _
                  (from_names_keys_inv names sep) Hfind) as Hkeys.
    destruct Hkeys as [n Hnd _].
    eapply chain_to_step.
    + apply single_child; [done | done |].
      intros k' c' Hin.
      assert ((p ++ [k']) `prefix_of` split sep name) as Hpre.
      { apply own_word_prefix.
        - rewrite find_node_snoc, Hfind.
          rewrite (children_get_elem_of k' c') by done. by eexists.
        - by destruct p. }
      rewrite Hsplit in Hpre. apply prefix_app_inv in Hpre.
      by apply prefix_cons_inv_1 in Hpre.
    + destruct (is_full_name n) eqn:Hfull; [exfalso|done].
      assert (has_name p (root (from_names names sep))) as Hhas.
      { apply has_name_find_node. by exists n. }
      apply has_name_full_paths, from_names_full_paths in Hhas
        as (name' & Hname' & Hp').
      assert (name' = name) as ->.
      { apply Halone; [done|].
        pose proof (first_word_head sep name') as Hh.
        rewrite <- Hp', Hhd in Hh. by injection Hh. }
      rewrite Hsplit in Hp'.
      apply (f_equal length) in Hp'. rewrite length_app in Hp'.
      simpl in Hp'. lia.
    + apply (IH (p ++ [k]) c); [|by destruct p|done].
      by rewrite <- (assoc_L (++)).
Qed.
End own_word.

Lemma length_two_distinct {A} (l : list A) x y :
  x ∈ l → y ∈ l → x ≠ y → 1 < length l.
Proof.
  destruct l as [|a [|b l]]; simpl; [by intros ?%elem_of_nil| |lia].
  intros ->%list_elem_of_singleton ->%list_elem_of_singleton. done.
Qed.

Lemma prefix_Forall {A} (P : A → Prop) (p q : list A) :
  p `prefix_of` q → Forall P q → Forall P p.
Proof. intros [k ->] [? _]%Forall_app. done. Qed.

(** When the names have at least two different first words, a name that
    shares its first word with no other name of the list is the only
    member of the group of its own name. *)
Theorem group_names_own_group names sep name g :
  tools.group_names names sep = Ok g →
  name ∈ names →
  (∀ name', name' ∈ names →
            first_word sep name' = first_word sep name → name' = name) →
  (∃ name', name' ∈ names ∧ first_word sep name' ≠ first_word sep name) →
  g !! name = Some [name].
Proof.
  intros Hg Hname Halone (other & Hother & Hdiff).
  destruct (foldl_insert_root (new sep) names) as [Hw _].
  assert ((children (root (from_names names sep))).*1
            = dedup (first_word sep <$> names)) as Hkeys.
  { unfold from_names. rewrite foldl_insert_keys, foldl_add_new_dedup.
    apply filter_not_elem_of_nil. }
  pose proof (from_names_keys_inv names sep) as Hkinv.
  inversion_clear Hkinv as [? Hnd _].
  fold (from_names names sep) in Hw.
  assert (first_word sep name
            ∈ (children (root (from_names names sep))).*1) as Hin.
  { rewrite Hkeys. apply elem_of_dedup. by apply list_elem_of_fmap_2. }
  apply list_elem_of_fmap in Hin as ([k c] & Hk & Hin). simpl in Hk.
  subst k.
  assert (chain_to name c) as Hchain.
  { pose proof (first_word_head sep name) as Hhd.
    destruct (split sep name) as [|w rest] eqn:Hsplit; [done|].
    injection Hhd as Hhd. subst w.
    apply (own_word_chain names sep name Hname Halone rest
             [first_word sep name] c); [by rewrite Hsplit | done |].
    simpl. by rewrite (children_get_elem_of _ c). }
  destruct (group_names_root_chain (from_names names sep) name
              (first_word sep name) c g) as (l & Hl & Hnl);
    [| |done|done|done|].
  { unfold is_root. by rewrite Hw. }
  { rewrite <- (length_fmap fst). rewrite Hkeys.
    apply (length_two_distinct _ (first_word sep name) (first_word sep other));
      [| |done]; apply elem_of_dedup; by apply list_elem_of_fmap_2. }
  assert (∀ m, m ∈ l → m = name) as Hall.
  { intros m Hm.
    destruct (group_names_word_prefix names sep g name l m Hg Hl Hm)
      as (p & q & Hp & Hsplit & Hjoin & Hmn).
    apply Halone; [done|].
    assert (split sep name = p) as Hpn.
    { rewrite Hjoin. apply split_join; [done|].
      apply (prefix_Forall _ p (split sep m)); [by exists q|].
      apply split_no_sep. }
    pose proof (first_word_head sep m) as Hm1.
    pose proof (first_word_head sep name) as Hn1.
    rewrite Hsplit in Hm1. rewrite Hpn in Hn1.
    destruct p; [done|]. simpl in *. congruence. }
  assert (NoDup l) as Hndl.
  { destruct (group_names_members names sep) as (g0 & Hg0 & Hsub).
    rewrite Hg in Hg0. injection Hg0 as <-.
    pose proof (submseteq_NoDup _ _ Hsub
                  (from_names_full_texts_NoDup names sep)) as Hndm.
    rewrite (members_lookup g name l Hl) in Hndm.
    by apply NoDup_app in Hndm as [? _]. }
  rewrite Hl. f_equal. destruct l as [|x [|y l]].
  - by apply elem_of_nil in Hnl.
  - f_equal. apply Hall. left.
  - apply NoDup_cons in Hndl as [Hx _]. destruct Hx.
    rewrite (Hall x), (Hall y); [left | right; left | left].
Qed.

Lemma group_names_own_group_witness :
  ({[ "foo" := ["foo"; "foo-bar"; "foo-baz"]; "xyz" := ["xyz"] ]}
     : gmap string (list string)) !! "xyz" = Some ["xyz"].
Proof.
  apply (group_names_own_group ["foo"; "foo-bar"; "foo-baz"; "xyz"] "-"
           "xyz").
  - vm_compute. reflexivity.
  - repeat (apply list_elem_of_here || apply list_elem_of_further).
  - intros name'
      [->|[->|[->|[->|[]%elem_of_nil]%elem_of_cons]%elem_of_cons]%elem_of_cons]%elem_of_cons;
      vm_compute; intros; done.
  - exists "foo". split; [apply list_elem_of_here|]. vm_compute. done.
Defined.
